(** * The Boolean-graph preprocessor of SCRAM (preprocessor.cc)

    A shallow embedding of the preprocessing algorithms over an explicit
    object store.  Gates live in a heap indexed by their node index; the
    C++ pointers ([IGatePtr], [NodePtr]) become indices into that heap, and
    every [void] member function becomes a heap transformer. *)

From Stdlib Require Import ZArith Lia Bool.
From stdpp Require Import base decidable option list sorting gmap strings.

Open Scope Z_scope.

(** ** Operators and states (boolean_graph.h) *)

(** Modelled from the spec: the [Operator] enumeration of boolean_graph.h is
    not part of the sources at hand; the gate kinds are those of the data
    model, under the names the preprocessor uses for them. *)
Inductive Operator : Type :=
  | kAndGate | kOrGate | kAtleastGate | kXorGate
  | kNotGate | kNandGate | kNorGate | kNullGate.

(** Modelled from the spec: the [State] enumeration of boolean_graph.h;
    [kNullState] is constant false, [kUnityState] constant true. *)
Inductive State : Type := kNormalState | kNullState | kUnityState.

#[global] Instance Operator_eq_dec : EqDecision Operator.
Proof. solve_decision. Defined.

#[global] Instance State_eq_dec : EqDecision State.
Proof. solve_decision. Defined.

(** ** Ordered integer sets ([std::set<int>])

    The argument set of a gate is a [std::set<int>] of signed indices; it is
    kept as a strictly increasing list, so that iteration from [begin()]
    walks it in ascending order. *)
Module IntSet.

Fixpoint insert (x : Z) (l : list Z) : list Z :=
  match l with
  | [] => [x]
  | y :: l' =>
      if decide (x < y) then x :: l
      else if decide (x = y) then l
      else y :: insert x l'
  end.

Definition erase (x : Z) (l : list Z) : list Z := filter (λ y, y ≠ x) l.

Definition count (x : Z) (l : list Z) : bool := bool_decide (x ∈ l).

Definition of_list (l : list Z) : list Z := foldr insert [] l.

(** The class invariant of [std::set]. *)
Definition wf (l : list Z) : Prop := StronglySorted Z.lt l.

End IntSet.

(** ** Nodes and the object store *)

(** Modelled from the spec: the [IGate] class of boolean_graph.h.  A gate has
    a kind, a state, a vote number (meaningful for ATLEAST), its signed
    arguments, the traversal mark and the module flag.  The parents of a node
    are not stored: by the consistency invariant of the data model they are
    exactly the live gates that hold the node as an argument (see
    [parents]). *)
Record IGate : Type := mkIGate {
  type : Operator;
  state : State;
  vote_number : Z;
  args : list Z;
  mark : bool;
  module : bool;
}.

(** Modelled from the spec: the node hierarchy (gate, variable, constant). *)
Inductive Node : Type :=
  | NGate (g : IGate)
  | NVariable
  | NConstant (value : bool).

(** The object store of a Boolean graph: the live nodes, the counter that
    hands out fresh node indices ([new IGate(...)]), and the root pointer
    [graph_->root()]. *)
Record Heap : Type := mkHeap {
  nodes : gmap Z Node;
  next_index : Z;
  root_ : Z;
}.

Definition get_gate (h : Heap) (i : Z) : option IGate :=
  match nodes h !! i with
  | Some (NGate g) => Some g
  | _ => None
  end.

Definition is_gate (h : Heap) (i : Z) : bool :=
  match get_gate h i with Some _ => true | None => false end.

Definition is_variable (h : Heap) (i : Z) : bool :=
  match nodes h !! i with Some NVariable => true | _ => false end.

Definition on_gate (f : IGate → IGate) (n : Node) : Node :=
  match n with
  | NGate g => NGate (f g)
  | _ => n
  end.

(** [gate->m(...)] for a mutating member [m]: the object at index [i] is
    updated in place. *)
Definition with_gate (i : Z) (f : IGate → IGate) (h : Heap) : Heap :=
  mkHeap (alter (on_gate f) i (nodes h)) (next_index h) (root_ h).

Definition set_type (t : Operator) (g : IGate) : IGate :=
  mkIGate t (state g) (vote_number g) (args g) (mark g) (module g).
Definition set_state (s : State) (g : IGate) : IGate :=
  mkIGate (type g) s (vote_number g) (args g) (mark g) (module g).
Definition set_vote_number (k : Z) (g : IGate) : IGate :=
  mkIGate (type g) (state g) k (args g) (mark g) (module g).
Definition set_args (l : list Z) (g : IGate) : IGate :=
  mkIGate (type g) (state g) (vote_number g) l (mark g) (module g).
Definition set_mark (b : bool) (g : IGate) : IGate :=
  mkIGate (type g) (state g) (vote_number g) (args g) b (module g).
Definition set_module (b : bool) (g : IGate) : IGate :=
  mkIGate (type g) (state g) (vote_number g) (args g) (mark g) b.

(** *** Member functions of [IGate] on a single gate object *)
Module Gate.

(** Modelled from the spec: [erase_arg] removes the signed index. *)
Definition EraseArg (arg : Z) (g : IGate) : IGate :=
  set_args (IntSet.erase arg (args g)) g.

Definition EraseAllArgs (g : IGate) : IGate := set_args [] g.

(** Modelled from the spec: [nullify] and [make_unity] collapse the gate
    to a constant state; a gate in a constant state has no arguments. *)
Definition Nullify (g : IGate) : IGate :=
  EraseAllArgs (set_state kNullState g).
Definition MakeUnity (g : IGate) : IGate :=
  EraseAllArgs (set_state kUnityState g).

(** Modelled from the spec: [add_arg] is a no-op on an exact duplicate; on
    meeting the complement of an argument already present it collapses the
    gate, to Unity for OR and to Null for AND and NAND; otherwise it
    inserts.  For the other kinds the data model states no collapse rule:
    the gate is left as it is. *)
Definition AddArg (arg : Z) (g : IGate) : IGate :=
  if IntSet.count arg (args g) then g
  else if IntSet.count (- arg) (args g) then
    match type g with
    | kOrGate => MakeUnity g
    | kAndGate | kNandGate => Nullify g
    | _ => g
    end
  else set_args (IntSet.insert arg (args g)) g.

(** Modelled from the spec: [invert_arg] flips the sign of one argument in
    place. *)
Definition InvertArg (arg : Z) (g : IGate) : IGate :=
  if IntSet.count arg (args g)
  then set_args (IntSet.insert (- arg) (IntSet.erase arg (args g))) g
  else g.

(** Modelled from the spec: [invert_args] flips the signs of all
    arguments. *)
Definition InvertArgs (g : IGate) : IGate :=
  set_args (reverse (Z.opp <$> args g)) g.

End Gate.

(** *** The same member functions through a pointer into the heap *)

Definition EraseArg (gate arg : Z) : Heap → Heap := with_gate gate (Gate.EraseArg arg).
Definition EraseAllArgs (gate : Z) : Heap → Heap := with_gate gate Gate.EraseAllArgs.
Definition Nullify (gate : Z) : Heap → Heap := with_gate gate Gate.Nullify.
Definition MakeUnity (gate : Z) : Heap → Heap := with_gate gate Gate.MakeUnity.
Definition AddArg (gate arg : Z) : Heap → Heap := with_gate gate (Gate.AddArg arg).
Definition InvertArg (gate arg : Z) : Heap → Heap := with_gate gate (Gate.InvertArg arg).
Definition InvertArgs (gate : Z) : Heap → Heap := with_gate gate Gate.InvertArgs.
Definition type_set (gate : Z) (t : Operator) : Heap → Heap := with_gate gate (set_type t).
Definition vote_number_set (gate : Z) (k : Z) : Heap → Heap :=
  with_gate gate (set_vote_number k).
Definition mark_set (gate : Z) (b : bool) : Heap → Heap := with_gate gate (set_mark b).

(** Modelled from the spec: [share_arg] copies the argument, with its sign,
    into the recipient; the child is the same object. *)
Definition ShareArg (gate arg recipient : Z) (h : Heap) : Heap :=
  match get_gate h gate with
  | Some g => if IntSet.count arg (args g) then AddArg recipient arg h else h
  | None => h
  end.

(** Getters; a dangling pointer reads as the default of the field type. *)
Definition type_of (h : Heap) (gate : Z) : Operator :=
  match get_gate h gate with Some g => type g | None => kNullGate end.
Definition state_of (h : Heap) (gate : Z) : State :=
  match get_gate h gate with Some g => state g | None => kNormalState end.
Definition args_of (h : Heap) (gate : Z) : list Z :=
  match get_gate h gate with Some g => args g | None => [] end.
Definition vote_number_of (h : Heap) (gate : Z) : Z :=
  match get_gate h gate with Some g => vote_number g | None => 0 end.
Definition mark_of (h : Heap) (gate : Z) : bool :=
  match get_gate h gate with Some g => mark g | None => false end.

(** [gate->gate_args()], [gate->variable_args()]: the arguments that are
    gates, respectively variables, in ascending order of signed index. *)
Definition gate_args (h : Heap) (gate : Z) : list Z :=
  filter (λ a, is_gate h (Z.abs a) = true) (args_of h gate).
Definition variable_args (h : Heap) (gate : Z) : list Z :=
  filter (λ a, is_variable h (Z.abs a) = true) (args_of h gate).

(** ** The C++ [switch] statement

    A switch is a list of case blocks in source order.  Control jumps to the
    block carrying the label of the scrutinee (or to [default]), runs its
    body, and keeps falling through the following bodies until a block that
    ends in [break]. *)
Module Switch.

Inductive Label : Type := case (o : Operator) | default.

#[global] Instance Label_eq_dec : EqDecision Label.
Proof. solve_decision. Defined.

Record Block (S : Type) : Type := block {
  labels : list Label;
  body : S → S;
  ends_in_break : bool;
}.
Arguments block {S} _ _ _.
Arguments labels {S} _.
Arguments body {S} _.
Arguments ends_in_break {S} _.

Fixpoint fall {S} (bs : list (Block S)) (s : S) : S :=
  match bs with
  | [] => s
  | b :: rest =>
      let s' := body b s in
      if ends_in_break b then s' else fall rest s'
  end.

Fixpoint jump {S} (l : Label) (bs : list (Block S)) : option (list (Block S)) :=
  match bs with
  | [] => None
  | b :: rest =>
      if bool_decide (l ∈ labels b) then Some bs else jump l rest
  end.

Definition switch {S} (o : Operator) (bs : list (Block S)) (s : S) : S :=
  match jump (case o) bs with
  | Some entry => fall entry s
  | None =>
      match jump default bs with
      | Some entry => fall entry s
      | None => s
      end
  end.

End Switch.
Import Switch.

(** ** Constant propagation: absorbing a constant argument *)

(** [Preprocessor::RemoveConstantArg] *)
Definition RemoveConstantArg (gate arg : Z) (h : Heap) : Heap :=
  let h := EraseArg gate arg h in
  if decide (Z.of_nat (length (args_of h gate)) = 1) then
    switch (type_of h gate)
      [ block [case kXorGate; case kOrGate; case kAndGate]
              (type_set gate kNullGate) true;
        block [case kNorGate; case kNandGate]
              (type_set gate kNotGate) true;
        block [default] id false ] h
  else h.

(** [Preprocessor::ProcessTrueArg] *)
Definition ProcessTrueArg (gate arg : Z) (h : Heap) : Heap :=
  switch (type_of h gate)
    [ block [case kNullGate; case kOrGate]
            (MakeUnity gate) true;
      block [case kNandGate; case kAndGate]
            (RemoveConstantArg gate arg) true;
      block [case kNorGate; case kNotGate]
            (Nullify gate) true;
      block [case kXorGate]
            (λ h, type_set gate kNotGate (EraseArg gate arg h)) true;
      block [case kAtleastGate]
            (λ h,
               let h := EraseArg gate arg h in
               let k := vote_number_of h gate in
               let k := k - 1 in
               let h := vote_number_set gate k h in
               if decide (k = 1) then type_set gate kOrGate h else h) true ] h.

(** [Preprocessor::ProcessFalseArg] *)
Definition ProcessFalseArg (gate arg : Z) (h : Heap) : Heap :=
  switch (type_of h gate)
    [ block [case kNorGate; case kXorGate; case kOrGate]
            (RemoveConstantArg gate arg) true;
      block [case kNullGate; case kAndGate]
            (Nullify gate) true;
      block [case kNandGate; case kNotGate]
            (MakeUnity gate) true;
      block [case kAtleastGate]
            (λ h,
               let h := EraseArg gate arg h in
               let k := vote_number_of h gate in
               let n := Z.of_nat (length (args_of h gate)) in
               if decide (k = n) then type_set gate kAndGate h else h) true ] h.

(** [Preprocessor::ProcessConstantArg] *)
Definition ProcessConstantArg (gate arg : Z) (state : bool) (h : Heap) : Heap :=
  let state := if decide (arg < 0) then negb state else state in
  if state then ProcessTrueArg gate arg h else ProcessFalseArg gate arg h.

(** ** Creating, cloning and destroying gates *)

(** Modelled from the spec: [new IGate(type)] makes a gate with a fresh,
    unique index, in the normal state, without arguments, unmarked and not a
    module. *)
Definition new_IGate (t : Operator) (h : Heap) : Z * Heap :=
  let i := next_index h in
  (i, mkHeap (<[i := NGate (mkIGate t kNormalState 0 [] false false)]> (nodes h))
             (i + 1) (root_ h)).

(** Modelled from the spec: [Clone] yields a structurally identical gate (same
    kind, vote number and arguments) with a fresh identity; the children are
    shared with the original. *)
Definition Clone (gate : Z) (h : Heap) : Z * Heap :=
  let i := next_index h in
  match get_gate h gate with
  | Some g =>
      (i, mkHeap (<[i := NGate (mkIGate (type g) kNormalState (vote_number g)
                                         (args g) false false)]> (nodes h))
                 (i + 1) (root_ h))
  | None => new_IGate kNullGate h
  end.

Definition holds_arg (node : Z) (n : Node) : bool :=
  match n with
  | NGate g => IntSet.count node (args g) || IntSet.count (- node) (args g)
  | _ => false
  end.

(** Modelled from the spec: [node->parents()], keyed by parent index.  By the
    parent/child consistency invariant these are the live gates that have
    [node] among their arguments, with either sign. *)
Definition parents (h : Heap) (node : Z) : list Z :=
  (map_to_list (filter (λ kv, holds_arg node kv.2 = true) (nodes h))).*1.

(** Modelled from the spec: ownership.  A node is owned by the gates that
    hold it as an argument; when its last owner lets go of it and nothing
    else ([held]: the graph root, pointers kept in tables) refers to it, it
    is destroyed, which in turn releases its own arguments. *)
Fixpoint release (fuel : nat) (held : list Z) (node : Z) (h : Heap) : Heap :=
  match fuel with
  | O => h
  | S fuel =>
      if bool_decide (node ∈ held) then h
      else if bool_decide (parents h node = []) then
        let h' := mkHeap (delete node (nodes h)) (next_index h) (root_ h) in
        foldl (λ h a, release fuel held (Z.abs a) h) h' (args_of h node)
      else h
  end.

(** A bound on the depth of any destruction cascade. *)
Definition release_fuel (h : Heap) : nat := S (size (nodes h)).

(** [graph_->ClearGateMarks()] *)
Definition ClearGateMarks (h : Heap) : Heap :=
  mkHeap (on_gate (set_mark false) <$> nodes h) (next_index h) (root_ h).

(** ** Normalization of gates *)

(** [Preprocessor::NormalizeXorGate].  The source asserts exactly two
    arguments; with fewer the second iterator dereference is undefined and
    the model leaves the graph alone. *)
Definition NormalizeXorGate (gate : Z) (h : Heap) : Heap :=
  match args_of h gate with
  | it1 :: it2 :: _ =>
      let '(gate_one, h) := new_IGate kAndGate h in
      let '(gate_two, h) := new_IGate kAndGate h in
      let h := mark_set gate_one true h in
      let h := mark_set gate_two true h in
      let h := type_set gate kOrGate h in
      let h := ShareArg gate it1 gate_one h in
      let h := ShareArg gate it1 gate_two h in
      let h := InvertArg gate_two it1 h in
      let h := ShareArg gate it2 gate_one h in
      let h := InvertArg gate_one it2 h in
      let h := ShareArg gate it2 gate_two h in
      let h := EraseAllArgs gate h in
      let h := AddArg gate gate_one h in
      AddArg gate gate_two h
  | _ => h
  end.

(** The loop [for (++it; it != args.end(); ++it)] of NormalizeAtleastGate. *)
Definition share_rest (gate grand_arg second_arg : Z) (rest : list Z) (h : Heap) : Heap :=
  foldl (λ h it, ShareArg gate it second_arg (ShareArg gate it grand_arg h)) h rest.

(** [Preprocessor::NormalizeAtleastGate]; [None] when the recursion budget
    runs out. *)
Fixpoint NormalizeAtleastGate (fuel : nat) (gate : Z) (h : Heap) : option Heap :=
  match fuel with
  | O => None
  | S fuel =>
      let vote_number := vote_number_of h gate in
      if decide (Z.of_nat (length (args_of h gate)) = vote_number) then
        Some (type_set gate kAndGate h)
      else if decide (vote_number = 1) then
        Some (type_set gate kOrGate h)
      else
        match args_of h gate with
        | [] => Some h
        | it :: rest =>
            let '(first_arg, h) := new_IGate kAndGate h in
            let h := ShareArg gate it first_arg h in
            let '(grand_arg, h) := new_IGate kAtleastGate h in
            let h := AddArg first_arg grand_arg h in
            let h := vote_number_set grand_arg (vote_number - 1) h in
            let '(second_arg, h) := new_IGate kAtleastGate h in
            let h := vote_number_set second_arg vote_number h in
            let h := share_rest gate grand_arg second_arg rest h in
            let h := mark_set first_arg true h in
            let h := mark_set second_arg true h in
            let h := mark_set grand_arg true h in
            let h := type_set gate kOrGate h in
            let h := EraseAllArgs gate h in
            let h := AddArg gate first_arg h in
            let h := AddArg gate second_arg h in
            h ← NormalizeAtleastGate fuel grand_arg h;
            NormalizeAtleastGate fuel second_arg h
        end
  end.

(** [Preprocessor::NotifyParentsOfNegativeGates] *)
Fixpoint NotifyParentsOfNegativeGates (fuel : nat) (gate : Z) (h : Heap) : option Heap :=
  match fuel with
  | O => None
  | S fuel =>
      if mark_of h gate then Some h
      else
        let h := mark_set gate true h in
        '(h, to_negate) ←
          foldl (λ (acc : option (Heap * list Z)) it,
                   '(h, to_negate) ← acc;
                   h ← NotifyParentsOfNegativeGates fuel (Z.abs it) h;
                   Some (h, switch (type_of h (Z.abs it))
                              [ block [case kNorGate; case kNandGate; case kNotGate]
                                      (λ l, l ++ [it]) false ] to_negate))
                (Some (h, [])) (gate_args h gate);
        Some (foldl (λ h it_neg, InvertArg gate it_neg h) h to_negate)
  end.

(** The [switch] on the gate kind that closes NormalizeGate; the state is the
    graph with the worklist [null_gates_]. *)
Definition NormalizeGate_switch (fuel : nat) (gate : Z) (full : bool)
    (s : Heap * list Z) : option (Heap * list Z) :=
  switch (type_of s.1 gate)
    [ block [case kNotGate]
        (λ r, '(h, null_gates_) ← r;
              Some (type_set gate kNullGate h, null_gates_ ++ [gate])) true;
      block [case kNorGate; case kOrGate]
        (λ r, '(h, null_gates_) ← r; Some (type_set gate kOrGate h, null_gates_)) true;
      block [case kNandGate; case kAndGate]
        (λ r, '(h, null_gates_) ← r; Some (type_set gate kAndGate h, null_gates_)) true;
      block [case kXorGate]
        (λ r, '(h, null_gates_) ← r;
              if negb full then Some (h, null_gates_)
              else Some (NormalizeXorGate gate h, null_gates_)) true;
      block [case kAtleastGate]
        (λ r, '(h, null_gates_) ← r;
              if negb full then Some (h, null_gates_)
              else h ← NormalizeAtleastGate fuel gate h; Some (h, null_gates_)) true;
      block [case kNullGate]
        (λ r, '(h, null_gates_) ← r; Some (h, null_gates_ ++ [gate])) true ]
    (Some s).

(** [Preprocessor::NormalizeGate] *)
Fixpoint NormalizeGate (fuel : nat) (gate : Z) (full : bool)
    (s : Heap * list Z) : option (Heap * list Z) :=
  match fuel with
  | O => None
  | S fuel =>
      if mark_of s.1 gate then Some s
      else
        let s := (mark_set gate true s.1, s.2) in
        s ← foldl (λ (acc : option (Heap * list Z)) it,
                     s ← acc; NormalizeGate fuel (Z.abs it) full s)
                  (Some s) (gate_args s.1 gate);
        NormalizeGate_switch (S fuel) gate full s
  end.

(** ** Propagation of complements (Phase IV) *)

(** The pointers kept alive by the complement table, next to the root. *)
Definition held_by (h : Heap) (gate_complements : gmap Z Z) : list Z :=
  root_ h :: (map_to_list gate_complements).*2.

(** [Preprocessor::PropagateComplements].  The table [gate_complements] maps
    the index of a gate to (the index of) its complement.  Erasing an
    argument drops an owning reference, so the argument is released. *)
Fixpoint PropagateComplements (fuel : nat) (gate : Z)
    (s : Heap * gmap Z Z) : option (Heap * gmap Z Z) :=
  match fuel with
  | O => None
  | S fuel =>
      if mark_of s.1 gate then Some s
      else
        let h := mark_set gate true s.1 in
        '(h, gate_complements, to_swap) ←
          foldl (λ (acc : option (Heap * gmap Z Z * list Z)) it,
                   '(h, gate_complements, to_swap) ← acc;
                   let arg_gate := Z.abs it in
                   if decide (it < 0) then
                     let to_swap := to_swap ++ [it] in
                     if decide (is_Some (gate_complements !! arg_gate))
                     then Some (h, gate_complements, to_swap)
                     else
                       let type := type_of h arg_gate in
                       let complement_type :=
                         if decide (type = kOrGate) then kAndGate else kOrGate in
                       let '(complement_gate, h) :=
                         if decide (length (parents h arg_gate) = 1%nat) then
                           (arg_gate,
                            InvertArgs arg_gate (type_set arg_gate complement_type h))
                         else
                           let '(clone, h) := Clone arg_gate h in
                           (clone, InvertArgs clone (type_set clone complement_type h)) in
                       let gate_complements :=
                         <[arg_gate := complement_gate]> gate_complements in
                       '(h, gate_complements) ←
                         PropagateComplements fuel complement_gate (h, gate_complements);
                       Some (h, gate_complements, to_swap)
                   else
                     '(h, gate_complements) ←
                       PropagateComplements fuel arg_gate (h, gate_complements);
                     Some (h, gate_complements, to_swap))
                (Some (h, s.2, [])) (gate_args h gate);
        foldl (λ (acc : option (Heap * gmap Z Z)) it_ch,
                 '(h, gate_complements) ← acc;
                 let h := EraseArg gate it_ch h in
                 let h := release (release_fuel h) (held_by h gate_complements)
                                  (Z.abs it_ch) h in
                 complement ← gate_complements !! (- it_ch);
                 Some (AddArg gate complement h, gate_complements))
              (Some (h, gate_complements)) to_swap
  end.

(** ** The Boolean function of a node *)

Definition count_true (vs : list bool) : Z := Z.of_nat (length (filter (λ b, b = true) vs)).

(** Modelled from the spec: the meaning of the gate kinds (glossary and data
    model): NULL passes its argument through, NOT negates it, ATLEAST is true
    iff at least [k] arguments are. *)
Definition apply_operator (t : Operator) (k : Z) (vs : list bool) : bool :=
  match t with
  | kAndGate => forallb id vs
  | kOrGate => existsb id vs
  | kNandGate => negb (forallb id vs)
  | kNorGate => negb (existsb id vs)
  | kNotGate => negb (existsb id vs)
  | kNullGate => existsb id vs
  | kXorGate => Z.odd (count_true vs)
  | kAtleastGate => bool_decide (k ≤ count_true vs)
  end.

(** The value of the signed argument [a] under the assignment [ρ] of the
    variables; a gate in a constant state has that constant as value. *)
Fixpoint eval (fuel : nat) (h : Heap) (ρ : Z → bool) (a : Z) : option bool :=
  match fuel with
  | O => None
  | S fuel =>
      v ← match nodes h !! Z.abs a with
          | Some NVariable => Some (ρ (Z.abs a))
          | Some (NConstant b) => Some b
          | Some (NGate g) =>
              match state g with
              | kNullState => Some false
              | kUnityState => Some true
              | kNormalState =>
                  vs ← mapM (eval fuel h ρ) (args g);
                  Some (apply_operator (type g) (vote_number g) vs)
              end
          | None => None
          end;
      Some (if decide (a < 0) then negb v else v)
  end.

(** ** Formulas read back from the graph *)

#[local] Set Warnings "-register-all".
Inductive Formula : Type :=
  | Leaf (a : Z)
  | Op (t : Operator) (fs : list Formula).

(** The sub-graph under the signed argument [a], unfolded as a formula: gates
    with an index of at least [lo] (the gates created by a rewriting step)
    are opened, every other argument is a leaf. *)
Fixpoint readback (fuel : nat) (lo : Z) (h : Heap) (a : Z) : option Formula :=
  match fuel with
  | O => None
  | S fuel =>
      if decide (lo ≤ a) then
        g ← get_gate h a;
        fs ← mapM (readback fuel lo h) (args g);
        Some (Op (type g) fs)
      else Some (Leaf a)
  end.

(** The formula of the gate [gate] itself over its arguments. *)
Definition readback_gate (fuel : nat) (lo : Z) (h : Heap) (gate : Z) : option Formula :=
  g ← get_gate h gate;
  fs ← mapM (readback fuel lo h) (args g);
  Some (Op (type g) fs).

(** ** The preprocessor object *)

(** The working state of a [Preprocessor] on its graph: the object store with
    the root, the sign of the root, the two worklists of the preprocessor,
    and the registries [constants_] and [null_gates_] of the graph. *)
Record Core : Type := mkCore {
  heap : Heap;
  root_sign_ : Z;
  const_gates_ : list Z;
  null_gates_ : list Z;
  constants_ : list Z;
  graph_null_gates_ : list Z;
}.

Definition set_heap (h : Heap) (c : Core) : Core :=
  mkCore h (root_sign_ c) (const_gates_ c) (null_gates_ c) (constants_ c)
         (graph_null_gates_ c).
Definition set_root_sign (sign : Z) (c : Core) : Core :=
  mkCore (heap c) sign (const_gates_ c) (null_gates_ c) (constants_ c)
         (graph_null_gates_ c).

(** [graph_->root(gate)]: the graph lets go of its previous root, which is
    destroyed unless something else owns it. *)
Definition root_set (gate : Z) (h : Heap) : Heap :=
  let old := root_ h in
  let h := mkHeap (nodes h) (next_index h) gate in
  release (release_fuel h) [gate] old h.

(** [Preprocessor::CheckRootGate] *)
Definition CheckRootGate (c : Core) : bool * Core :=
  let h := heap c in
  let root := root_ h in
  if decide (state_of h root ≠ kNormalState) then
    if decide (root_sign_ c < 0) then
      let orig_state := state_of h root in
      let '(root, h) := new_IGate kNullGate h in
      let h := root_set root h in
      let h := if decide (orig_state = kNullState)
               then MakeUnity root h else Nullify root h in
      (true, set_root_sign 1 (set_heap h c))
    else (true, c)
  else if decide (type_of h root = kNullGate) then
    match gate_args h root with
    | signed_index :: _ =>
        let h := root_set (Z.abs signed_index) h in
        (false, set_root_sign (root_sign_ c * (if decide (signed_index > 0) then 1 else -1))
                              (set_heap h c))
    | [] =>
        let h := if decide (root_sign_ c < 0) then InvertArgs root h else h in
        (true, set_root_sign 1 (set_heap h c))
    end
  else (false, c).

(** ** The phases

    The run of the preprocessor is observed through its logger: [debug2]
    receives the messages of [ProcessFaultTree] about the five phases, each
    stamped with the working state at that point (in place of the elapsed
    time), [debug3] the messages of the steps inside the phases. *)
Record Preprocessor : Type := mkPreprocessor {
  core : Core;
  coherent_ : bool;
  normal_ : bool;
  debug2 : list (string * Core);
  debug3 : list string;
}.

Definition set_core (c : Core) (p : Preprocessor) : Preprocessor :=
  mkPreprocessor c (coherent_ p) (normal_ p) (debug2 p) (debug3 p).
Definition set_normal (b : bool) (p : Preprocessor) : Preprocessor :=
  mkPreprocessor (core p) (coherent_ p) b (debug2 p) (debug3 p).

(** A computation of the preprocessor either completes with a result or is
    cut short (a step ran out of its recursion budget); the state reached so
    far is kept in both cases. *)
Definition M (A : Type) : Type := Preprocessor → option A * Preprocessor.

Definition ret {A} (a : A) : M A := λ p, (Some a, p).
Definition bind {A B} (m : M A) (k : A → M B) : M B :=
  λ p, match m p with
       | (Some a, p') => k a p'
       | (None, p') => (None, p')
       end.
Definition cut {A} : M A := λ p, (None, p).

Notation "x ←ₘ m ;; k" := (bind m (λ x, k))
  (at level 100, m at next level, right associativity).
Notation "m ;;ₘ k" := (bind m (λ _, k))
  (at level 100, right associativity).

Definition LOG_DEBUG2 (msg : string) : M unit :=
  λ p, (Some tt, mkPreprocessor (core p) (coherent_ p) (normal_ p)
                   (debug2 p ++ [(msg, core p)]) (debug3 p)).
Definition LOG_DEBUG3 (msg : string) : M unit :=
  λ p, (Some tt, mkPreprocessor (core p) (coherent_ p) (normal_ p)
                   (debug2 p) (debug3 p ++ [msg])).

(** A step that works on the graph and the worklists only. *)
Definition step (f : Core → option Core) : M unit :=
  λ p, match f (core p) with
       | Some c => (Some tt, set_core c p)
       | None => (None, p)
       end.
Definition step_bool (f : Core → option (bool * Core)) : M bool :=
  λ p, match f (core p) with
       | Some (b, c) => (Some b, set_core c p)
       | None => (None, p)
       end.
Definition total (f : Core → Core) : M unit := step (λ c, Some (f c)).
Definition read {A} (f : Preprocessor → A) : M A := λ p, (Some (f p), p).

Definition CheckRootGate_step : M bool := step_bool (λ c, Some (CheckRootGate c)).

Section Phases.

(** The structural simplifiers and the Boolean optimizers, and the drivers of
    constant and NULL-gate propagation.  None of them reads or writes the
    flags of the graph or the logger of the phases, so each is a step on the
    working state. *)
Variable RemoveConstants : Core → option Core.
Variable RemoveNullGates : Core → option Core.
Variable NormalizeGates : bool → Core → option Core.
Variable ProcessMultipleDefinitions : Core → option (bool * Core).
Variable DetectModules : Core → option Core.
Variable MergeCommonArgs : Core → option Core.
Variable BooleanOptimization : Core → option Core.
Variable DecomposeCommonNodes : Core → option Core.
Variable DetectDistributivity : Z → Core → option Core.
Variable ClearConstGates : Core → option Core.
Variable ClearNullGates : Core → option Core.
Variable JoinGates : Z → bool → Core → option Core.

(** [Preprocessor::PhaseOne] *)
Definition PhaseOne : M unit :=
  nonempty ←ₘ read (λ p, negb (bool_decide (constants_ (core p) = [])));;
  (if nonempty : bool then
     LOG_DEBUG3 "Removing constants..." ;;ₘ
     step RemoveConstants ;;ₘ
     LOG_DEBUG3 "Constant are removed!"
   else ret tt) ;;ₘ
  coherent ←ₘ read coherent_;;
  (if negb coherent then
     LOG_DEBUG3 "Partial normalization of gates..." ;;ₘ
     step (NormalizeGates false) ;;ₘ
     LOG_DEBUG3 "Finished the partial normalization of gates!"
   else ret tt) ;;ₘ
  nonempty ←ₘ read (λ p, negb (bool_decide (graph_null_gates_ (core p) = [])));;
  (if nonempty : bool then
     LOG_DEBUG3 "Removing NULL gates..." ;;ₘ
     step RemoveNullGates ;;ₘ
     LOG_DEBUG3 "Finished cleaning NULL gates!"
   else ret tt).

(** [while (graph_changed) graph_changed = ProcessMultipleDefinitions();] *)
Fixpoint multiple_definitions_loop (fuel : nat) : M unit :=
  match fuel with
  | O => cut
  | S fuel =>
      graph_changed ←ₘ step_bool ProcessMultipleDefinitions;;
      if graph_changed : bool then multiple_definitions_loop fuel else ret tt
  end.

(** The coalescing loop of Phases II and V:
    [while (graph_changed) { ... JoinGates(root, common) ... }]. *)
Fixpoint coalescing_loop (fuel : nat) (common : bool) : M unit :=
  match fuel with
  | O => cut
  | S fuel =>
      total (λ c, set_heap (ClearGateMarks (heap c)) c) ;;ₘ
      normal_root ←ₘ read (λ p, bool_decide
                              (state_of (heap (core p)) (root_ (heap (core p)))
                               = kNormalState));;
      (if normal_root : bool
       then step (λ c, JoinGates (root_ (heap c)) common c) else ret tt) ;;ₘ
      pending ←ₘ read (λ p, negb (bool_decide (const_gates_ (core p) = [])));;
      if pending : bool
      then step ClearConstGates ;;ₘ coalescing_loop fuel common
      else ret tt
  end.

(** [Preprocessor::PhaseTwo] *)
Definition PhaseTwo (fuel : nat) : M unit :=
  LOG_DEBUG3 "Detecting multiple definitions..." ;;ₘ
  multiple_definitions_loop fuel ;;ₘ
  LOG_DEBUG3 "Finished multi-definition detection in " ;;ₘ
  done ←ₘ CheckRootGate_step;;
  if done : bool then ret tt else
  LOG_DEBUG3 "Detecting modules..." ;;ₘ
  step DetectModules ;;ₘ
  LOG_DEBUG3 "Finished module detection!" ;;ₘ
  LOG_DEBUG3 "Merging common arguments..." ;;ₘ
  step MergeCommonArgs ;;ₘ
  LOG_DEBUG3 "Finished merging common args in " ;;ₘ
  coherent ←ₘ read coherent_;;
  (if coherent : bool then
     LOG_DEBUG3 "Boolean optimization..." ;;ₘ
     step BooleanOptimization ;;ₘ
     LOG_DEBUG3 "Finished Boolean optimization in "
   else ret tt) ;;ₘ
  done ←ₘ CheckRootGate_step;;
  if done : bool then ret tt else
  LOG_DEBUG3 "Decomposition of common nodes..." ;;ₘ
  step DecomposeCommonNodes ;;ₘ
  LOG_DEBUG3 "Finished the Decomposition in " ;;ₘ
  done ←ₘ CheckRootGate_step;;
  if done : bool then ret tt else
  LOG_DEBUG3 "Processing Distributivity..." ;;ₘ
  total (λ c, set_heap (ClearGateMarks (heap c)) c) ;;ₘ
  step (λ c, DetectDistributivity (root_ (heap c)) c) ;;ₘ
  step ClearConstGates ;;ₘ
  step ClearNullGates ;;ₘ
  LOG_DEBUG3 "Distributivity detection is done!" ;;ₘ
  LOG_DEBUG3 "Coalescing gates..." ;;ₘ
  coalescing_loop fuel false ;;ₘ
  LOG_DEBUG3 "Gate coalescense is done!" ;;ₘ
  done ←ₘ CheckRootGate_step;;
  if done : bool then ret tt else
  LOG_DEBUG3 "Detecting modules..." ;;ₘ
  step DetectModules ;;ₘ
  LOG_DEBUG3 "Finished module detection!".

(** [Preprocessor::PhaseThree] *)
Definition PhaseThree (fuel : nat) : M unit :=
  LOG_DEBUG3 "Full normalization of gates..." ;;ₘ
  step (NormalizeGates true) ;;ₘ
  LOG_DEBUG3 "Finished the full normalization gates!" ;;ₘ
  done ←ₘ CheckRootGate_step;;
  if done : bool then ret tt else PhaseTwo fuel.

(** The head of PhaseFour: a negative root sign is pushed into the root. *)
Definition absorb_root_sign (c : Core) : Core :=
  if decide (root_sign_ c < 0) then
    let h := heap c in
    let root := root_ h in
    let h :=
      if decide (type_of h root = kOrGate ∨ type_of h root = kAndGate)
      then type_set root (if decide (type_of h root = kOrGate)
                          then kAndGate else kOrGate) h
      else h in
    let h := InvertArgs root h in
    set_root_sign 1 (set_heap h c)
  else c.

(** The call of PropagateComplements from PhaseFour, on cleared marks and an
    empty table; clearing the table afterwards lets go of its pointers. *)
Definition propagate_complements (fuel : nat) (c : Core) : option Core :=
  let h := ClearGateMarks (heap c) in
  '(h, complements) ← PropagateComplements fuel (root_ h) (h, ∅);
  let h := foldl (λ h g, release (release_fuel h) [root_ h] g h) h
                 (map_to_list complements).*2 in
  Some (set_heap h c).

(** [Preprocessor::PhaseFour] *)
Definition PhaseFour (fuel : nat) : M unit :=
  LOG_DEBUG3 "Propagating complements..." ;;ₘ
  total absorb_root_sign ;;ₘ
  step (propagate_complements fuel) ;;ₘ
  LOG_DEBUG3 "Complement propagation is done!" ;;ₘ
  done ←ₘ CheckRootGate_step;;
  if done : bool then ret tt else PhaseTwo fuel.

(** [Preprocessor::PhaseFive] *)
Definition PhaseFive (fuel : nat) : M unit :=
  LOG_DEBUG3 "Coalescing gates..." ;;ₘ
  coalescing_loop fuel true ;;ₘ
  LOG_DEBUG3 "Gate coalescense is done!" ;;ₘ
  done ←ₘ CheckRootGate_step;;
  if done : bool then ret tt else
  PhaseTwo fuel ;;ₘ
  done ←ₘ CheckRootGate_step;;
  if done : bool then ret tt else
  LOG_DEBUG3 "Coalescing gates..." ;;ₘ
  coalescing_loop fuel true ;;ₘ
  LOG_DEBUG3 "Gate coalescense is done!".

(** [Preprocessor::ProcessFaultTree] *)
Definition ProcessFaultTree (fuel : nat) : M unit :=
  LOG_DEBUG2 "Preprocessing Phase I..." ;;ₘ
  PhaseOne ;;ₘ
  LOG_DEBUG2 "Finished Preprocessing Phase I in " ;;ₘ
  done ←ₘ CheckRootGate_step;;
  if done : bool then ret tt else
  LOG_DEBUG2 "Preprocessing Phase II..." ;;ₘ
  PhaseTwo fuel ;;ₘ
  LOG_DEBUG2 "Finished Preprocessing Phase II in " ;;ₘ
  done ←ₘ CheckRootGate_step;;
  if done : bool then ret tt else
  normal ←ₘ read normal_;;
  done ←ₘ (if negb normal then
             LOG_DEBUG2 "Preprocessing Phase III..." ;;ₘ
             PhaseThree fuel ;;ₘ
             LOG_DEBUG2 "Finished Preprocessing Phase III in " ;;ₘ
             (λ p, (Some tt, set_normal true p)) ;;ₘ
             CheckRootGate_step
           else ret false);;
  if done : bool then ret tt else
  coherent ←ₘ read coherent_;;
  done ←ₘ (if negb coherent then
             LOG_DEBUG2 "Preprocessing Phase IV..." ;;ₘ
             PhaseFour fuel ;;ₘ
             LOG_DEBUG2 "Finished Preprocessing Phase IV in " ;;ₘ
             CheckRootGate_step
           else ret false);;
  if done : bool then ret tt else
  LOG_DEBUG2 "Preprocessing Phase V..." ;;ₘ
  PhaseFive fuel ;;ₘ
  LOG_DEBUG2 "Finished Preprocessing Phase V in " ;;ₘ
  CheckRootGate_step ;;ₘ
  ret tt.

End Phases.

(** ** The statements of the specification, as definitions *)

(** The three ways a gate can absorb a constant argument. *)
Inductive Absorption : Type := RemoveArg | ToNull | ToUnity.

(** What the gate at hand did with the argument, read off its fields before
    and after. *)
Definition absorbed (arg : Z) (before after : IGate) (o : Absorption) : Prop :=
  match o with
  | RemoveArg =>
      state after = kNormalState ∧ args after = IntSet.erase arg (args before)
  | ToNull => state after = kNullState
  | ToUnity => state after = kUnityState
  end.

(** The FALSE column of the absorption table as the specification prints it:
    NULL, OR remove the argument; NAND, AND go to Null; NOR, NOT go to
    Unity. *)
Definition FalseArgTable_spec (t : Operator) : option Absorption :=
  match t with
  | kNullGate | kOrGate => Some RemoveArg
  | kNandGate | kAndGate => Some ToNull
  | kNorGate | kNotGate => Some ToUnity
  | _ => None
  end.

(** The same column as the source has it: OR, NOR remove the argument; NULL,
    AND go to Null; NAND, NOT go to Unity. *)
Definition FalseArgTable (t : Operator) : option Absorption :=
  match t with
  | kOrGate | kNorGate => Some RemoveArg
  | kNullGate | kAndGate => Some ToNull
  | kNandGate | kNotGate => Some ToUnity
  | _ => None
  end.

(** The value of a constant argument after the sign of the edge is applied
    ([state ^= (arg < 0)]). *)
Definition adjusted (arg : Z) (state : bool) : bool :=
  xorb state (bool_decide (arg < 0)).

(** The ATLEAST row of the absorption table, every case closed by a break:
    TRUE erases the argument and decrements the vote number, turning the gate
    into OR when the vote number reaches 1; FALSE erases the argument and
    turns the gate into AND when the vote number equals the number of
    arguments that remain. *)
Definition AtleastTable (value : bool) (arg : Z) (g : IGate) : IGate :=
  let g := Gate.EraseArg arg g in
  if value then
    let g := set_vote_number (vote_number g - 1) g in
    if decide (vote_number g = 1) then set_type kOrGate g else g
  else
    if decide (vote_number g = Z.of_nat (length (args g)))
    then set_type kAndGate g else g.

(** XOR(a, b) as OR(AND(a, ¬b), AND(¬a, b)); the arguments of a gate form a
    set, listed in ascending order. *)
Definition xor_normal_form (a b : Z) : Formula :=
  Op kOrGate [ Op kAndGate (Leaf <$> IntSet.of_list [a; - b]);
               Op kAndGate (Leaf <$> IntSet.of_list [- a; b]) ].

(** ATLEAST(k; x1..xn) expanded by the recursive rule of the specification,
    with the base cases k = 1 (OR) and k = n (AND). *)
Fixpoint atleast_normal_form (k : Z) (xs : list Z) : Formula :=
  match xs with
  | [] => Op kOrGate []
  | x1 :: rest =>
      if decide (k = 1) then Op kOrGate (Leaf <$> xs)
      else if decide (k = Z.of_nat (length xs)) then Op kAndGate (Leaf <$> xs)
      else Op kOrGate [ Op kAndGate [Leaf x1; atleast_normal_form (k - 1) rest];
                        atleast_normal_form k rest ]
  end.

(** Well-formed arguments: every argument refers to an allocated node, and no
    argument occurs together with its complement. *)
Definition allocated (h : Heap) (a : Z) : Prop := 0 < Z.abs a < next_index h.

Definition no_complements (l : list Z) : Prop := ∀ x, x ∈ l → - x ∉ l.

(** The leaves of a formula, left to right. *)
Fixpoint leaves (f : Formula) : list Z :=
  match f with
  | Leaf a => [a]
  | Op _ fs => mjoin (leaves <$> fs)
  end.

(** Node indices are handed out by the counter of the store: every live node
    has an index below it. *)
Definition heap_bounded (h : Heap) : Prop :=
  ∀ i n, nodes h !! i = Some n → i < next_index h.

(** ** Gate-local meaning

    The value of a gate as a function of the values of the nodes it refers
    to; the sign of an argument complements the value of its node. *)
Definition literal (val : Z → bool) (a : Z) : bool :=
  if decide (a < 0) then negb (val (Z.abs a)) else val (Z.abs a).

Definition gate_value (val : Z → bool) (g : IGate) : bool :=
  match state g with
  | kNullState => false
  | kUnityState => true
  | kNormalState => apply_operator (type g) (vote_number g) (literal val <$> args g)
  end.

(** The arities the preprocessor asserts where it relies on them: one
    argument for NULL and NOT gates, two for XOR gates. *)
Definition arity_ok (g : IGate) : Prop :=
  match type g with
  | kNullGate | kNotGate => length (args g) = 1%nat
  | kXorGate => length (args g) = 2%nat
  | _ => True
  end.

(** The root of the graph with its sign: the function the graph stands
    for. *)
Definition graph_value (fuel : nat) (c : Core) (ρ : Z → bool) : option bool :=
  v ← eval fuel (heap c) ρ (root_ (heap c));
  Some (if decide (root_sign_ c < 0) then negb v else v).

(** ** Module detection: grouping arguments by visit times *)

(** [DetectOverlap] of the anonymous namespace. *)
Definition DetectOverlap (a_min a_max b_min b_max : Z) : bool :=
  bool_decide (Z.max a_min b_min ≤ Z.min a_max b_max).

Section ModularArgs.

(** [Node::min_time()] and [Node::max_time()] of boolean_graph.h, as functions
    of the node index.  An argument [(signed index, node)] of the source is
    represented by its signed index; the node is the one of that index. *)
Variable min_time : Z → Z.
Variable max_time : Z → Z.

Definition overlaps (a b : Z) : bool :=
  DetectOverlap (min_time (Z.abs a)) (max_time (Z.abs a))
                (min_time (Z.abs b)) (max_time (Z.abs b)).

(** [Preprocessor::FilterModularArgs]; the result is the pair of the two
    vectors the source updates in place. *)
Fixpoint FilterModularArgs (fuel : nat) (modular_args non_modular_args : list Z)
    : option (list Z * list Z) :=
  match fuel with
  | O => None
  | S fuel =>
      if bool_decide (modular_args = []) || bool_decide (non_modular_args = [])
      then Some (modular_args, non_modular_args)
      else
        let non_module (it : Z) : bool :=
          existsb (λ it_n, overlaps it it_n) non_modular_args in
        let new_non_modular := filter (λ it, non_module it = true) modular_args in
        let still_modular := filter (λ it, non_module it = false) modular_args in
        '(still_modular, new_non_modular) ←
          FilterModularArgs fuel still_modular new_non_modular;
        Some (still_modular, non_modular_args ++ new_non_modular)
  end.

(** One sweep of the [for] loop of GroupModularArgs over the remaining
    members: a member whose range meets [low, high] joins the group, widens
    the range and leaves the member list. *)
Fixpoint sweep (member_list : list Z) (group : list Z) (low high : Z)
    : list Z * list Z * Z * Z :=
  match member_list with
  | [] => ([], group, low, high)
  | it :: member_list =>
      let min := min_time (Z.abs it) in
      let max := max_time (Z.abs it) in
      if DetectOverlap min max low high then
        sweep member_list (group ++ [it]) (Z.min min low) (Z.max max high)
      else
        let '(rest, group, low, high) := sweep member_list group low high in
        (it :: rest, group, low, high)
  end.

(** [while (prev_size < group.size())]: sweeps are repeated as long as the
    group grows. *)
Fixpoint grow_group (fuel : nat) (prev_size : nat) (member_list group : list Z)
    (low high : Z) : option (list Z * list Z) :=
  match fuel with
  | O => None
  | S fuel =>
      if bool_decide (prev_size < length group)%nat then
        let prev_size := length group in
        let '(member_list, group, low, high) := sweep member_list group low high in
        grow_group fuel prev_size member_list group low high
      else Some (member_list, group)
  end.

(** [while (!member_list.empty())] of GroupModularArgs. *)
Fixpoint group_members (fuel : nat) (member_list : list Z) (groups : list (list Z))
    : option (list (list Z)) :=
  match fuel with
  | O => None
  | S fuel =>
      match member_list with
      | [] => Some groups
      | front :: member_list =>
          '(member_list, group) ←
            grow_group fuel 0 member_list [front]
                       (min_time (Z.abs front)) (max_time (Z.abs front));
          group_members fuel member_list (groups ++ [group])
      end
  end.

(** [Preprocessor::GroupModularArgs], called with an empty [groups]. *)
Definition GroupModularArgs (fuel : nat) (modular_args : list Z)
    : option (list (list Z)) :=
  if bool_decide (modular_args = []) then Some []
  else group_members fuel modular_args [].

End ModularArgs.

(** The gate kinds that [NotifyParentsOfNegativeGates] takes for negative:
    the labels of its [switch]. *)
Definition negative_kind (t : Operator) : bool :=
  switch t [ block [case kNorGate; case kNandGate; case kNotGate] (λ _, true) false ]
         false.

(** Members of different groups do not overlap in visit times. *)
Fixpoint separated (min_time max_time : Z → Z) (groups : list (list Z)) : Prop :=
  match groups with
  | [] => True
  | g :: groups =>
      (∀ a b, a ∈ g → b ∈ concat groups → overlaps min_time max_time a b = false) ∧
      separated min_time max_time groups
  end.

(** ** Grouping of the parents of common arguments *)

(** [std::set_intersection] on two ascending ranges, as the standard library
    merges them. *)
Fixpoint set_intersection (l1 : list Z) : list Z → list Z :=
  fix go (l2 : list Z) : list Z :=
    match l1, l2 with
    | x :: l1', y :: l2' =>
        if decide (x < y) then set_intersection l1' l2
        else if decide (y < x) then go l2'
        else x :: set_intersection l1' l2'
    | _, _ => []
    end.

(** The conversion of an [int] to [size_t] (of 64 bits) in a mixed
    comparison. *)
Definition to_size_t (n : Z) : Z := n mod 2 ^ 64.

(** [MergeTable::Collection]: from the sorted common arguments to the set of
    the gates that have them in common. *)
Abbreviation Collection := (gmap (list Z) (gset Z)).

(** The body of the inner loop of GroupCommonParents for the gates
    number [i] and [j] of the group; subscripting the collection with
    [common] creates an empty entry when there is none. *)
Definition common_parents_of_pair (num_common_args : Z) (gi gj : Z * list Z)
    (parents : Collection) : Collection :=
  let common := set_intersection gi.2 gj.2 in
  if decide (Z.of_nat (length common) < to_size_t num_common_args) then parents
  else
    let common_parents :=
      match parents !! common with Some ps => ps | None => ∅ end in
    <[common := {[gj.1]} ∪ ({[gi.1]} ∪ common_parents)]> parents.

(** [Preprocessor::GroupCommonParents]: every gate of the group is compared
    with the gates after it. *)
Fixpoint GroupCommonParents (num_common_args : Z) (group : list (Z * list Z))
    (parents : Collection) : Collection :=
  match group with
  | [] => parents
  | gi :: rest =>
      GroupCommonParents num_common_args rest
        (foldl (λ parents gj, common_parents_of_pair num_common_args gi gj parents)
               parents rest)
  end.

(** The gate [p] is recorded as a parent of the common arguments [common]. *)
Definition recorded (parents : Collection) (common : list Z) (p : Z) : Prop :=
  ∃ ps, parents !! common = Some ps ∧ p ∈ ps.

(** Recording [p] under [common] is justified by the group: [p] is a gate of
    the group that has every argument of [common], and there are at least
    [num_common_args] of them. *)
Definition justified (num_common_args : Z) (group : list (Z * list Z))
    (common : list Z) (p : Z) : Prop :=
  num_common_args ≤ Z.of_nat (length common) ∧
  ∃ args, (p, args) ∈ group ∧ ∀ x, x ∈ common → x ∈ args.

(** ** Replacement of a gate *)

Definition push_const_gate (gate : Z) (c : Core) : Core :=
  mkCore (heap c) (root_sign_ c) (const_gates_ c ++ [gate]) (null_gates_ c)
         (constants_ c) (graph_null_gates_ c).
Definition push_null_gate (gate : Z) (c : Core) : Core :=
  mkCore (heap c) (root_sign_ c) (const_gates_ c) (null_gates_ c ++ [gate])
         (constants_ c) (graph_null_gates_ c).

(** [Preprocessor::ReplaceGate]; [None] when the budget of the [while] loop
    runs out.  The caller holds a pointer to [gate], which therefore outlives
    the loss of its parents. *)
Fixpoint ReplaceGate (fuel : nat) (gate replacement : Z) (c : Core) : option Core :=
  match fuel with
  | O => None
  | S fuel =>
      let h := heap c in
      match parents h gate with
      | [] => Some c
      | parent :: _ =>
          let index := gate in
          let sign := if IntSet.count (- index) (args_of h parent) then -1 else 1 in
          let h := EraseArg parent (sign * index) h in
          let h := AddArg parent (sign * replacement) h in
          let c := set_heap h c in
          let c :=
            if decide (state_of h parent ≠ kNormalState) then push_const_gate parent c
            else if decide (type_of h parent = kNullGate) then push_null_gate parent c
            else c in
          ReplaceGate fuel gate replacement c
      end
  end.

(** Invariant 1 of the graph, for one node: no gate has [node] as an argument
    with both signs. *)
Definition one_sign (h : Heap) (node : Z) : Prop :=
  ∀ p g, nodes h !! p = Some (NGate g) → node ∈ args g → - node ∈ args g → False.

(** * Verification *)

(** ** Lemmas about the object store *)

Section HeapLemmas.
Implicit Types (h : Heap) (g : IGate) (i j gate : Z).

Lemma get_gate_with_gate h i j f :
  get_gate (with_gate i f h) j =
  if decide (i = j) then f <$> get_gate h j else get_gate h j.
Proof.
  unfold get_gate, with_gate; simpl. rewrite lookup_alter.
  case_decide; subst; [|done].
  destruct (nodes h !! j) as [[]|]; done.
Qed.

Lemma get_gate_with_gate_eq h i f g :
  get_gate h i = Some g → get_gate (with_gate i f h) i = Some (f g).
Proof. intros H. rewrite get_gate_with_gate, decide_True, H by done. done. Qed.

Lemma get_gate_with_gate_ne h i j f :
  i ≠ j → get_gate (with_gate i f h) j = get_gate h j.
Proof. intros H. by rewrite get_gate_with_gate, decide_False. Qed.

Lemma with_gate_insert h i f g :
  get_gate h i = Some g →
  with_gate i f h = mkHeap (<[i := NGate (f g)]> (nodes h)) (next_index h) (root_ h).
Proof.
  unfold get_gate, with_gate. intros H. f_equal.
  destruct (nodes h !! i) as [[]|] eqn:E; simplify_eq.
  apply map_eq. intros j. rewrite lookup_alter, lookup_insert.
  case_decide; subst; [by rewrite E|done].
Qed.

Lemma with_gate_compose h i f1 f2 :
  with_gate i f2 (with_gate i f1 h) = with_gate i (f2 ∘ f1) h.
Proof.
  unfold with_gate; simpl. f_equal.
  apply map_eq. intros j. rewrite !lookup_alter.
  case_decide; [|done]. rewrite decide_True by done.
  destruct (nodes h !! i) as [[]|]; done.
Qed.
End HeapLemmas.


Lemma adjusted_true arg st :
  (if decide (arg < 0) then negb st else st) = adjusted arg st.
Proof.
  unfold adjusted. case_decide.
  - rewrite bool_decide_eq_true_2 by done. by destruct st.
  - rewrite bool_decide_eq_false_2 by done. by destruct st.
Qed.

(** ** Absorption of constant arguments *)

(** C4: on an ATLEAST gate [ProcessConstantArg] does what the ATLEAST row of
    the table says with a break after every case, and nothing else: for a
    TRUE argument (after the sign of the edge is applied) the argument is
    erased and the vote number decremented, the kind becoming OR when the
    vote number reaches 1; for a FALSE argument the argument is erased, the
    kind becoming AND when the vote number equals the number of remaining
    arguments.  Only the gate itself changes. *)
Theorem ProcessConstantArg_atleast_table h gate g arg st :
  get_gate h gate = Some g →
  type g = kAtleastGate →
  ProcessConstantArg gate arg st h =
  mkHeap (<[gate := NGate (AtleastTable (adjusted arg st) arg g)]> (nodes h))
         (next_index h) (root_ h).
Proof.
  intros Hg Ht. unfold ProcessConstantArg. rewrite adjusted_true.
  pose proof (get_gate_with_gate_eq h gate (Gate.EraseArg arg) g Hg) as He.
  destruct (adjusted arg st).
  - unfold ProcessTrueArg, type_of. rewrite Hg, Ht. unfold switch; simpl.
    unfold vote_number_of, vote_number_set, type_set, EraseArg in *.
    rewrite He. simpl.
    rewrite !with_gate_compose. unfold AtleastTable. simpl.
    case_decide; by rewrite (with_gate_insert _ _ _ _ Hg).
  - unfold ProcessFalseArg, type_of. rewrite Hg, Ht. unfold switch; simpl.
    unfold vote_number_of, args_of, type_set, EraseArg in *.
    rewrite He. simpl.
    rewrite ?with_gate_compose. unfold AtleastTable. simpl.
    case_decide; by rewrite (with_gate_insert _ _ _ _ Hg).
Qed.

Lemma ProcessConstantArg_atleast_table_witness :
  let g := mkIGate kAtleastGate kNormalState 2 [1; 2; 3] false false in
  let h := mkHeap {[ 1 := NConstant true; 2 := NVariable; 3 := NVariable;
                     4 := NGate g ]} 5 4 in
  get_gate h 4 = Some g ∧ type g = kAtleastGate ∧
  ProcessConstantArg 4 1 true h =
  mkHeap (<[4 := NGate (mkIGate kOrGate kNormalState 1 [2; 3] false false)]>
            (nodes h)) 5 4.
Proof.
  intros g h. split; [reflexivity|]. split; [reflexivity|].
  exact (ProcessConstantArg_atleast_table h 4 g 1 true eq_refl eq_refl).
Defined.

Lemma nodes_with_gate_ne h i j f :
  i ≠ j → nodes (with_gate i f h) !! j = nodes h !! j.
Proof. intros H. unfold with_gate; simpl. by rewrite lookup_alter_ne. Qed.

(** C2 (as stated, refuted): the FALSE column as the specification prints it
    fails on a NULL gate: the gate does not drop the argument, it collapses
    to the Null state. *)
Lemma FalseArgTable_spec_refuted :
  let g := mkIGate kNullGate kNormalState 0 [1] false false in
  let h := mkHeap {[ 1 := NConstant false; 2 := NGate g ]} 3 2 in
  let g' := mkIGate kNullGate kNullState 0 [] false false in
  FalseArgTable_spec (type g) = Some RemoveArg ∧
  adjusted 1 false = false ∧
  get_gate (ProcessConstantArg 2 1 false h) 2 = Some g' ∧
  ¬ absorbed 1 g g' RemoveArg.
Proof.
  intros g h g'. repeat split; try reflexivity.
  intros [Hstate _]. discriminate Hstate.
Qed.

(** The switches of the absorption functions, case by case. *)
Lemma ProcessFalseArg_cases gate arg h :
  ProcessFalseArg gate arg h =
  match type_of h gate with
  | kNorGate | kXorGate | kOrGate => RemoveConstantArg gate arg h
  | kNullGate | kAndGate => Nullify gate h
  | kNandGate | kNotGate => MakeUnity gate h
  | kAtleastGate =>
      let h := EraseArg gate arg h in
      if decide (vote_number_of h gate = Z.of_nat (length (args_of h gate)))
      then type_set gate kAndGate h else h
  end.
Proof. unfold ProcessFalseArg. by destruct (type_of h gate). Qed.

Lemma RemoveConstantArg_cases gate arg h :
  RemoveConstantArg gate arg h =
  let h := EraseArg gate arg h in
  if decide (Z.of_nat (length (args_of h gate)) = 1) then
    match type_of h gate with
    | kXorGate | kOrGate | kAndGate => type_set gate kNullGate h
    | kNorGate | kNandGate => type_set gate kNotGate h
    | _ => h
    end
  else h.
Proof.
  unfold RemoveConstantArg. cbv zeta. case_decide; [|done].
  by destruct (type_of (EraseArg gate arg h) gate).
Qed.

(** C2 (amended): a FALSE argument (after the sign of the edge is applied) is
    removed by an OR or NOR parent, which stays in the normal state; it
    collapses a NULL or AND parent to the Null state and a NAND or NOT parent
    to the Unity state.  No other gate changes. *)
Theorem ProcessConstantArg_false_by_kind h gate g arg st o :
  get_gate h gate = Some g →
  state g = kNormalState →
  adjusted arg st = false →
  FalseArgTable (type g) = Some o →
  (∃ g', get_gate (ProcessConstantArg gate arg st h) gate = Some g' ∧
         absorbed arg g g' o) ∧
  (∀ j, j ≠ gate →
        nodes (ProcessConstantArg gate arg st h) !! j = nodes h !! j).
Proof.
  intros Hg Hs Hadj Ho. unfold ProcessConstantArg.
  rewrite adjusted_true, Hadj, ProcessFalseArg_cases.
  pose proof (get_gate_with_gate_eq h gate (Gate.EraseArg arg) g Hg) as He.
  assert (Hrm : (∃ g', get_gate (RemoveConstantArg gate arg h) gate = Some g' ∧
                       absorbed arg g g' RemoveArg) ∧
                (∀ j, j ≠ gate →
                      nodes (RemoveConstantArg gate arg h) !! j = nodes h !! j)).
  { rewrite RemoveConstantArg_cases. cbv zeta.
    unfold type_of, args_of, EraseArg, type_set. rewrite He.
    assert (∀ t, (∃ g', get_gate (with_gate gate (set_type t)
                          (with_gate gate (Gate.EraseArg arg) h)) gate = Some g' ∧
                        absorbed arg g g' RemoveArg) ∧
                 (∀ j, j ≠ gate →
                       nodes (with_gate gate (set_type t)
                          (with_gate gate (Gate.EraseArg arg) h)) !! j = nodes h !! j))
      as Hty.
    { intros t. split; [|intros j Hj; by rewrite !nodes_with_gate_ne].
      eexists; split; [rewrite with_gate_compose; by apply get_gate_with_gate_eq|].
      by simpl. }
    assert ((∃ g', get_gate (with_gate gate (Gate.EraseArg arg) h) gate = Some g' ∧
                   absorbed arg g g' RemoveArg) ∧
            (∀ j, j ≠ gate →
                  nodes (with_gate gate (Gate.EraseArg arg) h) !! j = nodes h !! j))
      as Hno.
    { split; [|intros j Hj; by rewrite !nodes_with_gate_ne].
      eexists; split; [done|by simpl]. }
    case_decide; [|done].
    destruct (type (Gate.EraseArg arg g)); auto. }
  unfold type_of. rewrite Hg.
  destruct (type g) eqn:Ht; simpl in Ho; simplify_eq; try done;
    unfold Nullify, MakeUnity.
  - split; [|intros j Hj; by rewrite !nodes_with_gate_ne].
    eexists; split; [by apply get_gate_with_gate_eq|done].
  - split; [|intros j Hj; by rewrite !nodes_with_gate_ne].
    eexists; split; [by apply get_gate_with_gate_eq|done].
  - split; [|intros j Hj; by rewrite !nodes_with_gate_ne].
    eexists; split; [by apply get_gate_with_gate_eq|done].
  - split; [|intros j Hj; by rewrite !nodes_with_gate_ne].
    eexists; split; [by apply get_gate_with_gate_eq|done].
Qed.

Lemma ProcessConstantArg_false_by_kind_witness :
  let g := mkIGate kNandGate kNormalState 0 [-1; 2] false false in
  let h := mkHeap {[ 1 := NConstant true; 2 := NVariable; 3 := NGate g ]} 4 3 in
  get_gate h 3 = Some g ∧ state g = kNormalState ∧ adjusted (-1) true = false ∧
  FalseArgTable (type g) = Some ToUnity ∧
  (∃ g', get_gate (ProcessConstantArg 3 (-1) true h) 3 = Some g' ∧
         absorbed (-1) g g' ToUnity).
Proof.
  intros g h. repeat (split; [reflexivity|]).
  exact (proj1 (ProcessConstantArg_false_by_kind h 3 g (-1) true ToUnity
                  eq_refl eq_refl eq_refl eq_refl)).
Defined.

Lemma get_gate_new_IGate t h j :
  get_gate (new_IGate t h).2 j =
  if decide (j = next_index h)
  then Some (mkIGate t kNormalState 0 [] false false) else get_gate h j.
Proof.
  unfold get_gate, new_IGate; simpl. rewrite lookup_insert.
  repeat case_decide; simplify_eq; done.
Qed.

Lemma next_index_with_gate i f h : next_index (with_gate i f h) = next_index h.
Proof. done. Qed.

Lemma count_true_iff x l : IntSet.count x l = true ↔ x ∈ l.
Proof. unfold IntSet.count. apply bool_decide_eq_true. Qed.

Lemma count_false_iff x l : IntSet.count x l = false ↔ x ∉ l.
Proof. unfold IntSet.count. apply bool_decide_eq_false. Qed.

Lemma ShareArg_eq h gate g arg recipient :
  get_gate h gate = Some g → arg ∈ args g →
  ShareArg gate arg recipient h = AddArg recipient arg h.
Proof.
  intros Hg Hin. unfold ShareArg. rewrite Hg.
  by rewrite (proj2 (count_true_iff _ _) Hin).
Qed.


Lemma new_IGate_eq t h : new_IGate t h = (next_index h, (new_IGate t h).2).
Proof. done. Qed.

Lemma next_index_new_IGate t h : next_index (new_IGate t h).2 = next_index h + 1.
Proof. done. Qed.

Lemma nodes_new_IGate_ne t h j :
  j ≠ next_index h → nodes (new_IGate t h).2 !! j = nodes h !! j.
Proof. intros. unfold new_IGate; simpl. by rewrite lookup_insert_ne. Qed.

Ltac to_with_gate :=
  unfold AddArg, InvertArg, EraseArg, EraseAllArgs, type_set, mark_set,
    vote_number_set, Nullify, MakeUnity, InvertArgs.

(** Reading a gate through a chain of updates. *)
Ltac read_gate :=
  repeat first
    [ rewrite get_gate_with_gate
    | rewrite get_gate_new_IGate
    | rewrite next_index_with_gate
    | rewrite next_index_new_IGate
    | rewrite decide_True by lia
    | rewrite decide_False by lia ].


(** Resolving the innermost [ShareArg] of the goal into the [AddArg] it
    performs. *)
Ltac share_arg tac :=
  match goal with
  | |- context [ShareArg ?g ?a ?r ?hh] =>
      lazymatch hh with
      | context [ShareArg _ _ _ _] => fail
      | _ => erewrite (ShareArg_eq hh g _ a r); [ | tac | ]
      end
  end.

Ltac gate_fields :=
  unfold Gate.AddArg, Gate.InvertArg, Gate.EraseArg, Gate.EraseAllArgs,
    Gate.InvertArgs, set_args, set_type, set_mark, set_vote_number, set_state,
    IntSet.count, IntSet.erase, IntSet.of_list; simpl.


(** Deciding the membership tests and comparisons met while computing the
    fields of a gate. *)
Ltac decide_fields :=
  repeat (simpl;
    match goal with
    | |- context [bool_decide (?x ∈ ?l)] =>
        first [ rewrite (bool_decide_eq_true_2 (x ∈ l)) by (set_solver by lia)
              | rewrite (bool_decide_eq_false_2 (x ∈ l)) by (set_solver by lia) ]
    | |- context [filter _ (_ :: _)] => rewrite filter_cons
    | |- context [filter _ []] => rewrite filter_nil
    | |- context [decide ?P] =>
        first [ rewrite (decide_True (P:=P)) by lia
              | rewrite (decide_False (P:=P)) by lia ]
    end).


#[local] Arguments readback : simpl never.

Lemma readback_S fuel lo h a :
  readback (S fuel) lo h a =
  if decide (lo ≤ a) then
    g ← get_gate h a;
    fs ← mapM (readback fuel lo h) (args g);
    Some (Op (type g) fs)
  else Some (Leaf a).
Proof. done. Qed.

Lemma mapM_readback_leaves fuel lo h l :
  Forall (λ x, x < lo) l →
  mapM (readback (S fuel) lo h) l = Some (Leaf <$> l).
Proof.
  induction 1 as [|x l Hx Hl IH]; [done|]. simpl.
  rewrite readback_S, decide_False by lia. simpl. by rewrite IH.
Qed.

Lemma NormalizeGate_switch_xor fuel gate h null_gates :
  type_of h gate = kXorGate →
  NormalizeGate_switch fuel gate true (h, null_gates)
  = Some (NormalizeXorGate gate h, null_gates).
Proof. intros Ht. unfold NormalizeGate_switch. simpl. by rewrite Ht. Qed.

(** ** Normalization of XOR gates *)

(** C7: full normalization rewrites a two-argument gate XOR(a, b) into
    OR(AND(a, ¬b), AND(¬a, b)): the gate itself becomes an OR gate over two
    freshly created AND gates, which hold the original signed arguments [a]
    and [b], one of them complemented in each; no other node changes. *)
Theorem NormalizeGate_xor_normal_form fuel h null_gates gate g a b :
  get_gate h gate = Some g →
  type g = kXorGate →
  args g = [a; b] →
  a < b →
  a ≠ - b →
  allocated h a →
  allocated h b →
  gate < next_index h →
  ∃ h',
    NormalizeGate_switch fuel gate true (h, null_gates) = Some (h', null_gates) ∧
    let n := next_index h in
    get_gate h' gate = Some (set_args [n; n + 1] (set_type kOrGate g)) ∧
    get_gate h' n =
      Some (mkIGate kAndGate kNormalState 0 (IntSet.of_list [a; - b]) true false) ∧
    get_gate h' (n + 1) =
      Some (mkIGate kAndGate kNormalState 0 (IntSet.of_list [- a; b]) true false) ∧
    next_index h' = n + 2 ∧
    (∀ j, j ≠ gate → j < n → nodes h' !! j = nodes h !! j) ∧
    readback_gate 2 n h' gate = Some (xor_normal_form a b).
Proof.
  intros Hg Ht Ha Hab Hnc Aa Ab Hlt. unfold allocated in *.
  assert (- next_index h < a < next_index h ∧ - next_index h < b < next_index h)
    as [Ba Bb] by lia.
  clear Aa Ab.
  eexists. split.
  { apply NormalizeGate_switch_xor. unfold type_of. by rewrite Hg. }
  cbv zeta.
  unfold NormalizeXorGate, args_of. rewrite Hg, Ha.
  rewrite (new_IGate_eq _ h). cbv beta iota zeta.
  rewrite (new_IGate_eq _ (new_IGate kAndGate h).2). cbv beta iota zeta.
  rewrite next_index_new_IGate.
  set (n := next_index h) in *.
  set (h1 := (new_IGate kAndGate (new_IGate kAndGate h).2).2).
  assert (H1g : get_gate h1 gate = Some g).
  { subst h1. read_gate. done. }
  assert (H1n : get_gate h1 n = Some (mkIGate kAndGate kNormalState 0 [] false false)).
  { subst h1. read_gate. done. }
  assert (H1m : get_gate h1 (n + 1)
                = Some (mkIGate kAndGate kNormalState 0 [] false false)).
  { subst h1. read_gate. done. }
  assert (H1o : ∀ j, j < n → nodes h1 !! j = nodes h !! j).
  { intros j Hj. subst h1. rewrite !nodes_new_IGate_ne; [done|lia|].
    rewrite next_index_new_IGate. lia. }
  assert (H1x : next_index h1 = n + 2).
  { subst h1. rewrite !next_index_new_IGate. lia. }
  clearbody h1.
  do 4 (share_arg ltac:(to_with_gate; read_gate; rewrite H1g; reflexivity);
        [|simpl; rewrite Ha; set_solver]).
  match goal with |- ?A ∧ ?B ∧ ?C ∧ ?D ∧ ?E ∧ ?F =>
    assert (HA : A); [|assert (HB : B); [|assert (HC : C)]] end.
  - to_with_gate. read_gate. rewrite H1g. simpl. f_equal.
    gate_fields. decide_fields. by destruct g.
  - to_with_gate. read_gate. rewrite H1n. simpl. f_equal.
    gate_fields. decide_fields. f_equal. repeat case_decide; (done || lia).
  - to_with_gate. read_gate. rewrite H1m. simpl. f_equal.
    gate_fields. decide_fields. f_equal. repeat case_decide; (done || lia).
  - split_and!; try done.
    + intros j Hj Hjn. to_with_gate. rewrite !nodes_with_gate_ne by lia. by apply H1o.
    + unfold readback_gate. rewrite HA. simpl.
      rewrite !readback_S, !decide_True by lia. rewrite HB, HC. simpl.
      rewrite !mapM_readback_leaves; [done| |].
      * gate_fields. repeat case_decide; repeat constructor; lia.
      * gate_fields. repeat case_decide; repeat constructor; lia.
Qed.

Lemma NormalizeGate_xor_normal_form_witness :
  let g := mkIGate kXorGate kNormalState 0 [1; 2] false false in
  let h := mkHeap {[ 1 := NVariable; 2 := NVariable; 3 := NGate g ]} 4 3 in
  (get_gate h 3 = Some g ∧ type g = kXorGate ∧ args g = [1; 2] ∧ 1 < 2 ∧
   1 ≠ - 2 ∧ allocated h 1 ∧ allocated h 2 ∧ 3 < next_index h) ∧
  ∃ h', NormalizeGate_switch 1 3 true (h, []) = Some (h', []) ∧
        readback_gate 2 4 h' 3 = Some (xor_normal_form 1 2).
Proof.
  intros g h.
  assert (Hhyp : get_gate h 3 = Some g ∧ type g = kXorGate ∧ args g = [1; 2] ∧
                 1 < 2 ∧ 1 ≠ - 2 ∧ allocated h 1 ∧ allocated h 2 ∧
                 3 < next_index h).
  { unfold allocated. simpl. repeat split; (reflexivity || lia). }
  split; [exact Hhyp|].
  destruct Hhyp as (H1 & H2 & H3 & H4 & H5 & H6 & H7 & H8).
  destruct (NormalizeGate_xor_normal_form 1 h [] 3 g 1 2 H1 H2 H3 H4 H5 H6 H7 H8)
    as (h' & Hrun & _ & _ & _ & _ & _ & Hread).
  exists h'. split; [exact Hrun|exact Hread].
Defined.

(** * Further properties of the preprocessor *)

(** ** Overlap of visit-time ranges *)

(** X7: [DetectOverlap] holds exactly when the two closed ranges have a point
    in common; in particular it does not depend on the order of the two
    ranges. *)
Theorem DetectOverlap_common_point a_min a_max b_min b_max :
  (DetectOverlap a_min a_max b_min b_max = true ↔
   ∃ t, a_min ≤ t ≤ a_max ∧ b_min ≤ t ≤ b_max) ∧
  DetectOverlap a_min a_max b_min b_max = DetectOverlap b_min b_max a_min a_max.
Proof.
  unfold DetectOverlap. split.
  - rewrite bool_decide_eq_true. split.
    + intros H. exists (Z.max a_min b_min). lia.
    + intros [t Ht]. lia.
  - apply bool_decide_ext. lia.
Qed.

Section ModularArgsFacts.
Variables min_time max_time : Z → Z.
Local Abbreviation overlaps := (overlaps min_time max_time).
Local Abbreviation FilterModularArgs := (FilterModularArgs min_time max_time).

Lemma filter_split_length (P : Z → bool) (l : list Z) :
  (length (filter (λ x, P x = false) l) ≤ length l)%nat.
Proof. apply length_filter. Qed.

Lemma filter_both_perm (P : Z → bool) (l : list Z) :
  filter (λ x, P x = false) l ++ filter (λ x, P x = true) l ≡ₚ l.
Proof.
  induction l as [|x l IH]; [done|].
  rewrite !filter_cons. destruct (P x) eqn:E.
  - rewrite decide_False by done. rewrite decide_True by done.
    rewrite <- Permutation_middle. by constructor.
  - rewrite decide_True by done. rewrite decide_False by done.
    simpl. by constructor.
Qed.

Lemma FilterModularArgs_S fuel modular_args non_modular_args :
  FilterModularArgs (S fuel) modular_args non_modular_args =
  if bool_decide (modular_args = []) || bool_decide (non_modular_args = [])
  then Some (modular_args, non_modular_args)
  else
    let non_module (it : Z) : bool :=
      existsb (λ it_n, overlaps it it_n) non_modular_args in
    let new_non_modular := filter (λ it, non_module it = true) modular_args in
    let still_modular := filter (λ it, non_module it = false) modular_args in
    '(still_modular, new_non_modular) ←
      FilterModularArgs fuel still_modular new_non_modular;
    Some (still_modular, non_modular_args ++ new_non_modular).
Proof. done. Qed.

(** X8: given a recursion budget above the number of modular arguments,
    [FilterModularArgs] returns; it only moves arguments from the modular to
    the end of the non-modular vector (none is lost, none is invented), and
    afterwards no argument that is still modular overlaps in visit times with
    any non-modular argument. *)
Theorem FilterModularArgs_separates fuel :
  ∀ modular_args non_modular_args,
    (length modular_args < fuel)%nat →
    ∃ modular' added,
      FilterModularArgs fuel modular_args non_modular_args
        = Some (modular', non_modular_args ++ added) ∧
      modular' ++ added ≡ₚ modular_args ∧
      (∀ x y, x ∈ modular' → y ∈ non_modular_args ++ added → overlaps x y = false).
Proof.
  induction fuel as [|fuel IH]; intros m n Hlen; [lia|].
  rewrite FilterModularArgs_S.
  destruct (bool_decide (m = [])) eqn:Em; simpl orb; cbv iota.
  { apply bool_decide_eq_true in Em as ->.
    exists [], []. rewrite app_nil_r. split_and!; [done|done|].
    intros x y Hx. by apply elem_of_nil in Hx. }
  destruct (bool_decide (n = [])) eqn:En; cbv iota zeta.
  { apply bool_decide_eq_true in En as ->.
    exists m, []. rewrite !app_nil_r. split_and!; [done|done|].
    intros x y _ Hy. by apply elem_of_nil in Hy. }
  set (non_module := λ it, existsb (λ it_n, overlaps it it_n) n).
  set (new := filter (λ it, non_module it = true) m).
  set (still := filter (λ it, non_module it = false) m).
  assert (Hnew : new ≠ [] ∨ new = []) by (destruct new; auto).
  assert (Hperm : still ++ new ≡ₚ m) by apply filter_both_perm.
  assert (Hstill : ∀ x y, x ∈ still → y ∈ n → overlaps x y = false).
  { intros x y Hx Hy. apply list_elem_of_filter in Hx as [Hx _].
    unfold non_module in Hx.
    destruct (overlaps x y) eqn:E; [|done].
    assert (existsb (λ it_n, overlaps x it_n) n = true); [|congruence].
    apply existsb_exists. exists y. split; [by apply list_elem_of_In|done]. }
  assert (∃ m' added, FilterModularArgs fuel still new = Some (m', new ++ added) ∧
            m' ++ added ≡ₚ still ∧
            (∀ x y, x ∈ m' → y ∈ new ++ added → overlaps x y = false))
    as (m' & added & Hrun & Hp & Hsep).
  { destruct new as [|x0 new'] eqn:Enew.
    - exists still, []. destruct fuel as [|fuel'].
      { destruct m; [done|simpl in Hlen; lia]. }
      rewrite FilterModularArgs_S. rewrite orb_true_r.
      rewrite !app_nil_r. split_and!; [done|done|].
      intros x y _ Hy. by apply elem_of_nil in Hy.
    - rewrite <- Enew in *. apply IH.
      apply Permutation_length in Hperm. rewrite length_app in Hperm.
      assert (0 < length new)%nat by (rewrite Enew; simpl; lia). lia. }
  rewrite Hrun. simpl.
  exists m', (new ++ added). split_and!.
  - done.
  - rewrite (assoc (++)). rewrite (Permutation_app_comm m' new).
    rewrite <- (assoc (++)). rewrite Hp. by rewrite (Permutation_app_comm new still).
  - intros x y Hx Hy. rewrite (assoc (++)) in Hy.
    apply elem_of_app in Hy as [Hy|Hy].
    + apply elem_of_app in Hy as [Hy|Hy]; [|apply Hsep; set_solver].
      apply Hstill; [|done].
      assert (x ∈ m' ++ added) by set_solver. rewrite Hp in H. done.
    + apply Hsep; set_solver.
Qed.

End ModularArgsFacts.

Lemma FilterModularArgs_separates_witness :
  let min_time := λ i : Z, 10 * i in
  let max_time := λ i : Z, if decide (i = 2) then 35 else 10 * i + 5 in
  (length [1; 2; 4] < 4)%nat ∧
  ∃ modular' added,
    FilterModularArgs min_time max_time 4 [1; 2; 4] [3]
      = Some (modular', [3] ++ added) ∧
    modular' ++ added ≡ₚ [1; 2; 4].
Proof.
  intros min_time max_time.
  assert (Hlen : (length [1; 2; 4] < 4)%nat) by (simpl; lia).
  split; [exact Hlen|].
  destruct (FilterModularArgs_separates min_time max_time 4 [1; 2; 4] [3] Hlen)
    as (m' & added & Hrun & Hperm & _).
  exists m', added. split; [exact Hrun|exact Hperm].
Defined.

(** ** Constant absorption preserves the value of the gate *)

Implicit Types (l : list Z) (x arg : Z).

Lemma erase_notin x l : x ∉ l → IntSet.erase x l = l.
Proof.
  unfold IntSet.erase. induction l as [|y l IH]; intros H; [done|].
  rewrite filter_cons, decide_True by set_solver. f_equal. apply IH. set_solver.
Qed.

Lemma erase_cons_eq x l : x ∉ l → IntSet.erase x (x :: l) = l.
Proof.
  intros H. unfold IntSet.erase. rewrite filter_cons, decide_False by tauto.
  by apply erase_notin.
Qed.

Lemma erase_cons_ne x y l : y ≠ x → IntSet.erase x (y :: l) = y :: IntSet.erase x l.
Proof. intros H. unfold IntSet.erase. by rewrite filter_cons, decide_True. Qed.

Lemma length_erase x l :
  NoDup l → x ∈ l → length l = S (length (IntSet.erase x l)).
Proof.
  induction 1 as [|y l Hy Hnd IH]; intros Hx; [by apply elem_of_nil in Hx|].
  destruct (decide (y = x)) as [->|Hne].
  - by rewrite erase_cons_eq.
  - rewrite erase_cons_ne by done. simpl. rewrite <- IH by set_solver. done.
Qed.

Section Values.
Variable val : Z → bool.

Lemma forallb_id_cons (b : bool) (vs : list bool) :
  forallb id (b :: vs) = b && forallb id vs.
Proof. done. Qed.

Lemma existsb_id_cons (b : bool) (vs : list bool) :
  existsb id (b :: vs) = b || existsb id vs.
Proof. done. Qed.

Lemma forallb_erase x l :
  NoDup l → x ∈ l →
  forallb id (literal val <$> l)
  = literal val x && forallb id (literal val <$> IntSet.erase x l).
Proof.
  induction 1 as [|y l Hy Hnd IH]; intros Hx; [by apply elem_of_nil in Hx|].
  destruct (decide (y = x)) as [->|Hne].
  - by rewrite erase_cons_eq.
  - rewrite erase_cons_ne by done. rewrite !fmap_cons, !forallb_id_cons.
    rewrite IH by set_solver.
    by destruct (literal val y), (literal val x).
Qed.

Lemma existsb_erase x l :
  NoDup l → x ∈ l →
  existsb id (literal val <$> l)
  = literal val x || existsb id (literal val <$> IntSet.erase x l).
Proof.
  induction 1 as [|y l Hy Hnd IH]; intros Hx; [by apply elem_of_nil in Hx|].
  destruct (decide (y = x)) as [->|Hne].
  - by rewrite erase_cons_eq.
  - rewrite erase_cons_ne by done. rewrite !fmap_cons, !existsb_id_cons.
    rewrite IH by set_solver.
    by destruct (literal val y), (literal val x).
Qed.

Lemma count_true_cons b (vs : list bool) :
  count_true (b :: vs) = (if b then 1 else 0) + count_true vs.
Proof.
  unfold count_true. rewrite filter_cons. destruct b.
  - rewrite decide_True by done. simpl length. lia.
  - rewrite decide_False by done. lia.
Qed.

Lemma count_true_erase x l :
  NoDup l → x ∈ l →
  count_true (literal val <$> l)
  = (if literal val x then 1 else 0) + count_true (literal val <$> IntSet.erase x l).
Proof.
  induction 1 as [|y l Hy Hnd IH]; intros Hx; [by apply elem_of_nil in Hx|].
  destruct (decide (y = x)) as [->|Hne].
  - rewrite erase_cons_eq by done. rewrite fmap_cons. apply count_true_cons.
  - rewrite erase_cons_ne by done. rewrite !fmap_cons, !count_true_cons.
    rewrite IH by set_solver. lia.
Qed.

Lemma count_true_bounds (vs : list bool) : 0 ≤ count_true vs ≤ Z.of_nat (length vs).
Proof.
  induction vs as [|b vs IH]; [done|]. rewrite count_true_cons.
  destruct b; simpl length; lia.
Qed.

Lemma existsb_count_true (vs : list bool) :
  existsb id vs = bool_decide (1 ≤ count_true vs).
Proof.
  induction vs as [|b vs IH]; [done|].
  rewrite count_true_cons, existsb_id_cons.
  pose proof (count_true_bounds vs). destruct b; simpl orb.
  - symmetry. apply bool_decide_eq_true. lia.
  - rewrite IH. apply bool_decide_ext. lia.
Qed.

Lemma forallb_count_true (vs : list bool) :
  forallb id vs = bool_decide (Z.of_nat (length vs) ≤ count_true vs).
Proof.
  induction vs as [|b vs IH]; [done|].
  rewrite count_true_cons, forallb_id_cons.
  pose proof (count_true_bounds vs). destruct b; simpl andb.
  - rewrite IH. apply bool_decide_ext. simpl length. lia.
  - symmetry. apply bool_decide_eq_false. simpl length. lia.
Qed.

End Values.

Lemma IntSet_wf_NoDup l : IntSet.wf l → NoDup l.
Proof.
  induction 1 as [|x l Hl IH Hx]; constructor; [|done].
  intros Hin. rewrite Forall_forall in Hx. apply Hx in Hin. lia.
Qed.

Lemma ProcessTrueArg_cases gate arg h :
  ProcessTrueArg gate arg h =
  match type_of h gate with
  | kNullGate | kOrGate => MakeUnity gate h
  | kNandGate | kAndGate => RemoveConstantArg gate arg h
  | kNorGate | kNotGate => Nullify gate h
  | kXorGate => type_set gate kNotGate (EraseArg gate arg h)
  | kAtleastGate =>
      let h := EraseArg gate arg h in
      let k := vote_number_of h gate - 1 in
      let h := vote_number_set gate k h in
      if decide (k = 1) then type_set gate kOrGate h else h
  end.
Proof. unfold ProcessTrueArg. by destruct (type_of h gate). Qed.

(** The kind of a gate that [RemoveConstantArg] leaves with [n] arguments. *)
Lemma RemoveConstantArg_gate h gate g arg :
  get_gate h gate = Some g →
  ∃ g', get_gate (RemoveConstantArg gate arg h) gate = Some g' ∧
        state g' = state g ∧ vote_number g' = vote_number g ∧
        args g' = IntSet.erase arg (args g) ∧
        type g' =
          if decide (length (IntSet.erase arg (args g)) = 1%nat) then
            match type g with
            | kXorGate | kOrGate | kAndGate => kNullGate
            | kNorGate | kNandGate => kNotGate
            | t => t
            end
          else type g.
Proof.
  intros Hg. rewrite RemoveConstantArg_cases. cbv zeta.
  pose proof (get_gate_with_gate_eq h gate (Gate.EraseArg arg) g Hg) as He.
  unfold args_of, type_of, EraseArg, type_set. rewrite He.
  change (args (Gate.EraseArg arg g)) with (IntSet.erase arg (args g)).
  change (type (Gate.EraseArg arg g)) with (type g).
  destruct (decide (Z.of_nat (length (IntSet.erase arg (args g))) = 1)) as [E|E].
  - rewrite decide_True by lia.
    destruct (type g) eqn:Ht;
      try (eexists; split; [exact He|by rewrite ?Ht]);
      (eexists; split;
       [rewrite with_gate_compose; by apply get_gate_with_gate_eq|done]).
  - rewrite decide_False by lia. eexists; split; [exact He|done].
Qed.

Ltac goal_decide E :=
  match goal with |- context [decide ?P] => destruct (decide P) as [E|E] end.

Lemma literal_adjusted val arg :
  (if decide (arg < 0) then negb (val (Z.abs arg)) else val (Z.abs arg))
  = literal val arg.
Proof. done. Qed.

Lemma gate_value_normal val g :
  state g = kNormalState →
  gate_value val g = apply_operator (type g) (vote_number g) (literal val <$> args g).
Proof. unfold gate_value. by intros ->. Qed.

(** X1: absorbing a constant argument does not change the Boolean function of
    the parent gate: whatever the values of the other nodes, the gate that
    [ProcessConstantArg] leaves behind has the value the gate had with the
    constant among its arguments. *)
Theorem ProcessConstantArg_preserves_value val h gate g arg st :
  get_gate h gate = Some g →
  state g = kNormalState →
  IntSet.wf (args g) →
  arity_ok g →
  arg ∈ args g →
  val (Z.abs arg) = st →
  ∃ g', get_gate (ProcessConstantArg gate arg st h) gate = Some g' ∧
        gate_value val g' = gate_value val g.
Proof.
  intros Hg Hs Hwf Har Hin Hval.
  pose proof (IntSet_wf_NoDup _ Hwf) as Hnd.
  pose proof (forallb_erase val arg _ Hnd Hin) as Hall.
  pose proof (existsb_erase val arg _ Hnd Hin) as Hex.
  pose proof (count_true_erase val arg _ Hnd Hin) as Hcnt.
  pose proof (length_erase arg _ Hnd Hin) as Hlen.
  pose proof (count_true_bounds (literal val <$> IntSet.erase arg (args g))) as Hb.
  rewrite length_fmap in Hb.
  rewrite (gate_value_normal val g Hs).
  unfold ProcessConstantArg. rewrite <- Hval, literal_adjusted.
  destruct (RemoveConstantArg_gate h gate g arg Hg) as (gr & Hgr & Hrs & Hrv & Hra & Hrt).
  pose proof (get_gate_with_gate_eq h gate (Gate.EraseArg arg) g Hg) as He.
  destruct (literal val arg) eqn:Hlit.
  - (* a TRUE argument *)
    rewrite ProcessTrueArg_cases. unfold type_of. rewrite Hg.
    destruct (type g) eqn:Ht; unfold arity_ok in Har; rewrite Ht in Har.
    + (* AND *) exists gr. split; [done|].
      rewrite gate_value_normal by congruence. rewrite Hrt, Hrv, Hra, ?Ht.
      simpl apply_operator at 2. rewrite Hall. simpl andb.
      goal_decide E; [|done]. simpl.
      destruct (IntSet.erase arg (args g)) as [|y [|??]]; simplify_eq/=.
      unfold id. by destruct (literal val y).
    + (* OR *) eexists. split; [by apply get_gate_with_gate_eq|].
      simpl. by rewrite Hex.
    + (* ATLEAST *) cbv zeta.
      unfold vote_number_of, vote_number_set, type_set, EraseArg. rewrite He.
      change (vote_number (Gate.EraseArg arg g)) with (vote_number g).
      goal_decide E.
      * eexists. split.
        { rewrite !with_gate_compose. by apply get_gate_with_gate_eq. }
        unfold gate_value. simpl. rewrite Hs. simpl.
        rewrite existsb_count_true, Hcnt. apply bool_decide_ext. lia.
      * eexists. split.
        { rewrite !with_gate_compose. by apply get_gate_with_gate_eq. }
        unfold gate_value. simpl. rewrite Hs. simpl. rewrite Ht. simpl.
        rewrite Hcnt. apply bool_decide_ext. lia.
    + (* XOR *) unfold type_set, EraseArg. eexists. split.
      { rewrite !with_gate_compose. by apply get_gate_with_gate_eq. }
      unfold gate_value. simpl. rewrite Hs. simpl. rewrite Hcnt.
      rewrite Har in Hlen.
      destruct (IntSet.erase arg (args g)) as [|y [|??]]; simplify_eq/=.
      rewrite count_true_cons. unfold id. by destruct (literal val y).
    + (* NOT *) eexists. split; [by apply get_gate_with_gate_eq|].
      simpl. by rewrite Hex.
    + (* NAND *) exists gr. split; [done|].
      rewrite gate_value_normal by congruence. rewrite Hrt, Hrv, Hra, ?Ht.
      simpl apply_operator at 2. rewrite Hall. simpl andb.
      goal_decide E; [|done]. simpl.
      destruct (IntSet.erase arg (args g)) as [|y [|??]]; simplify_eq/=.
      unfold id. by destruct (literal val y).
    + (* NOR *) eexists. split; [by apply get_gate_with_gate_eq|].
      simpl. by rewrite Hex.
    + (* NULL *) eexists. split; [by apply get_gate_with_gate_eq|].
      simpl. by rewrite Hex.
  - (* a FALSE argument *)
    rewrite ProcessFalseArg_cases. unfold type_of. rewrite Hg.
    destruct (type g) eqn:Ht; unfold arity_ok in Har; rewrite Ht in Har.
    + (* AND *) eexists. split; [by apply get_gate_with_gate_eq|].
      simpl. by rewrite Hall.
    + (* OR *) exists gr. split; [done|].
      rewrite gate_value_normal by congruence. rewrite Hrt, Hrv, Hra, ?Ht.
      simpl apply_operator at 2. rewrite Hex. simpl orb.
      goal_decide E; done.
    + (* ATLEAST *) cbv zeta.
      unfold vote_number_of, args_of, type_set, EraseArg. rewrite He.
      change (vote_number (Gate.EraseArg arg g)) with (vote_number g).
      change (args (Gate.EraseArg arg g)) with (IntSet.erase arg (args g)).
      goal_decide E.
      * eexists. split.
        { rewrite !with_gate_compose. by apply get_gate_with_gate_eq. }
        unfold gate_value. simpl. rewrite Hs. simpl.
        rewrite forallb_count_true, Hcnt, length_fmap.
        apply bool_decide_ext. lia.
      * eexists. split; [exact He|].
        unfold gate_value. simpl. rewrite Hs. simpl. rewrite Ht. simpl.
        rewrite Hcnt. apply bool_decide_ext. lia.
    + (* XOR *) exists gr. split; [done|].
      rewrite gate_value_normal by congruence. rewrite Hrt, Hrv, Hra, ?Ht.
      simpl apply_operator at 2. rewrite Hcnt. simpl Z.add.
      goal_decide E; [|done]. simpl.
      destruct (IntSet.erase arg (args g)) as [|y [|??]]; simplify_eq/=.
      rewrite count_true_cons. unfold id. by destruct (literal val y).
    + (* NOT *) eexists. split; [by apply get_gate_with_gate_eq|].
      simpl. rewrite Hex. rewrite Har in Hlen.
      destruct (IntSet.erase arg (args g)); simplify_eq/=. done.
    + (* NAND *) eexists. split; [by apply get_gate_with_gate_eq|].
      simpl. by rewrite Hall.
    + (* NOR *) exists gr. split; [done|].
      rewrite gate_value_normal by congruence. rewrite Hrt, Hrv, Hra, ?Ht.
      simpl apply_operator at 2. rewrite Hex. simpl orb.
      goal_decide E; done.
    + (* NULL *) eexists. split; [by apply get_gate_with_gate_eq|].
      simpl. rewrite Hex. rewrite Har in Hlen.
      destruct (IntSet.erase arg (args g)); simplify_eq/=. done.
Qed.

Lemma ProcessConstantArg_preserves_value_witness :
  let val := λ i : Z, bool_decide (i = 1) in
  let g := mkIGate kAtleastGate kNormalState 2 [1; 2; 3] false false in
  let h := mkHeap {[ 1 := NConstant true; 2 := NVariable; 3 := NVariable;
                     4 := NGate g ]} 5 4 in
  (get_gate h 4 = Some g ∧ state g = kNormalState ∧ IntSet.wf (args g) ∧
   arity_ok g ∧ 1 ∈ args g ∧ val (Z.abs 1) = true) ∧
  ∃ g', get_gate (ProcessConstantArg 4 1 true h) 4 = Some g' ∧
        gate_value val g' = gate_value val g.
Proof.
  intros val g h.
  assert (Hhyp : get_gate h 4 = Some g ∧ state g = kNormalState ∧
                 IntSet.wf (args g) ∧ arity_ok g ∧ 1 ∈ args g ∧
                 val (Z.abs 1) = true).
  { split_and!; try reflexivity; try exact I; try apply list_elem_of_here.
    unfold IntSet.wf. simpl. repeat constructor; lia. }
  split; [exact Hhyp|].
  destruct Hhyp as (H1 & H2 & H3 & H4 & H5 & H6).
  exact (ProcessConstantArg_preserves_value val h 4 g 1 true H1 H2 H3 H4 H5 H6).
Defined.

(** X2: [RemoveConstantArg] erases the argument and keeps the gate in shape: a
    gate of kind XOR, OR, AND, NOR or NAND that is left with exactly one
    argument becomes a NULL or NOT gate, so none of these kinds is ever left
    with a single argument; with any other number of arguments the kind is
    kept.  No other node changes. *)
Theorem RemoveConstantArg_single_arg h gate g arg :
  get_gate h gate = Some g →
  type g ∈ [kXorGate; kOrGate; kAndGate; kNorGate; kNandGate] →
  ∃ g', get_gate (RemoveConstantArg gate arg h) gate = Some g' ∧
        args g' = IntSet.erase arg (args g) ∧
        state g' = state g ∧
        (length (args g') = 1%nat →
         type g' = if bool_decide (type g ∈ [kNorGate; kNandGate])
                   then kNotGate else kNullGate) ∧
        (length (args g') ≠ 1%nat → type g' = type g) ∧
        (∀ j, j ≠ gate → nodes (RemoveConstantArg gate arg h) !! j = nodes h !! j).
Proof.
  intros Hg Hty.
  destruct (RemoveConstantArg_gate h gate g arg Hg) as (g' & Hg' & Hs & Hv & Ha & Ht).
  exists g'. split_and!; try done.
  - intros Hl. rewrite Ha in Hl. rewrite Ht, decide_True by done.
    destruct (type g); try done; set_solver.
  - intros Hl. rewrite Ha in Hl. by rewrite Ht, decide_False.
  - intros j Hj. rewrite RemoveConstantArg_cases. cbv zeta.
    unfold EraseArg, type_set. goal_decide E; [|by rewrite nodes_with_gate_ne].
    destruct (type_of _ gate); by rewrite ?nodes_with_gate_ne.
Qed.

Lemma RemoveConstantArg_single_arg_witness :
  let g := mkIGate kNandGate kNormalState 0 [1; 2] false false in
  let h := mkHeap {[ 1 := NConstant true; 2 := NVariable; 3 := NGate g ]} 4 3 in
  (get_gate h 3 = Some g ∧
   type g ∈ [kXorGate; kOrGate; kAndGate; kNorGate; kNandGate]) ∧
  ∃ g', get_gate (RemoveConstantArg 3 1 h) 3 = Some g' ∧
        args g' = IntSet.erase 1 (args g).
Proof.
  intros g h.
  assert (Hhyp : get_gate h 3 = Some g ∧
                 type g ∈ [kXorGate; kOrGate; kAndGate; kNorGate; kNandGate]).
  { split; [reflexivity|]. simpl. do 4 apply list_elem_of_further.
    apply list_elem_of_here. }
  split; [exact Hhyp|]. destruct Hhyp as [H1 H2].
  destruct (RemoveConstantArg_single_arg h 3 g 1 H1 H2) as (g' & Hg' & Ha & _).
  exists g'. split; [exact Hg'|exact Ha].
Defined.

#[local] Arguments eval : simpl never.

(** ** The root gate *)

Lemma eval_S fuel h ρ a :
  eval (S fuel) h ρ a =
  v ← match nodes h !! Z.abs a with
      | Some NVariable => Some (ρ (Z.abs a))
      | Some (NConstant b) => Some b
      | Some (NGate g) =>
          match state g with
          | kNullState => Some false
          | kUnityState => Some true
          | kNormalState =>
              vs ← mapM (eval fuel h ρ) (args g);
              Some (apply_operator (type g) (vote_number g) vs)
          end
      | None => None
      end;
  Some (if decide (a < 0) then negb v else v).
Proof. done. Qed.

Lemma eval_mono fuel h ρ a v :
  eval fuel h ρ a = Some v → eval (S fuel) h ρ a = Some v.
Proof.
  revert a v. induction fuel as [|fuel IH]; intros a v; [done|].
  rewrite (eval_S (S fuel)), (eval_S fuel).
  destruct (nodes h !! Z.abs a) as [[g| |]|]; try done.
  destruct (state g); try done.
  destruct (mapM (eval fuel h ρ) (args g)) as [vs|] eqn:E; [|done].
  assert (mapM (eval (S fuel) h ρ) (args g) = Some vs) as ->; [|done].
  apply mapM_Some. apply mapM_Some in E.
  eapply Forall2_impl; [exact E|]. intros x y. apply IH.
Qed.

Lemma mapM_ext_in {A B} (f g : A → option B) (k : list A) :
  (∀ a, a ∈ k → f a = g a) → mapM f k = mapM g k.
Proof.
  induction k as [|a k IH]; intros H; [done|]. simpl.
  rewrite (H a) by set_solver. rewrite IH; [done|]. intros y Hy. apply H. set_solver.
Qed.

(** Two stores that agree everywhere but at a node that no gate refers to
    give every other node the same value. *)
Lemma eval_unreferenced fuel h h' ρ r a :
  (∀ i, i ≠ r → nodes h' !! i = nodes h !! i) →
  (∀ i g, nodes h !! i = Some (NGate g) → ∀ x, x ∈ args g → Z.abs x ≠ r) →
  Z.abs a ≠ r →
  eval fuel h' ρ a = eval fuel h ρ a.
Proof.
  intros Hag Hnr. revert a. induction fuel as [|fuel IH]; intros a Ha; [done|].
  rewrite !eval_S. rewrite (Hag _ Ha).
  destruct (nodes h !! Z.abs a) as [[g| |]|] eqn:E; try done.
  destruct (state g); try done.
  assert (mapM (eval fuel h' ρ) (args g) = mapM (eval fuel h ρ) (args g)) as ->;
    [|done].
  apply mapM_ext_in. intros x Hx. apply IH. by eapply Hnr.
Qed.

Lemma parents_nil h r :
  parents h r = [] →
  ∀ i g, nodes h !! i = Some (NGate g) → ∀ x, x ∈ args g → Z.abs x ≠ r.
Proof.
  unfold parents. intros Hp i g Hi x Hx Habs.
  apply fmap_nil_inv in Hp. apply map_to_list_empty_iff in Hp.
  assert (Hf : filter (λ kv : Z * Node, holds_arg r kv.2 = true) (nodes h) !! i
               = Some (NGate g)); [|by rewrite Hp, lookup_empty in Hf].
  apply map_lookup_filter_Some_2; [done|]. simpl.
  unfold IntSet.count. apply orb_true_iff.
  destruct (decide (x < 0)).
  - right. apply bool_decide_eq_true. replace (- r) with x by lia. done.
  - left. apply bool_decide_eq_true. replace r with x by lia. done.
Qed.

(** Releasing nodes only ever deletes nodes, never one of those held, and
    leaves the counter and the root pointer alone. *)
Lemma release_spec fuel held :
  ∀ node h,
    let h' := release fuel held node h in
    next_index h' = next_index h ∧ root_ h' = root_ h ∧
    (∀ i n, nodes h' !! i = Some n → nodes h !! i = Some n) ∧
    (∀ i, i ∈ held → nodes h' !! i = nodes h !! i).
Proof.
  induction fuel as [|fuel IH]; intros node h; [by simpl|].
  simpl. case_bool_decide as Hheld; [done|].
  case_bool_decide as Hpar; [|done].
  set (h0 := mkHeap (delete node (nodes h)) (next_index h) (root_ h)).
  assert (H0 : next_index h0 = next_index h ∧ root_ h0 = root_ h ∧
               (∀ i n, nodes h0 !! i = Some n → nodes h !! i = Some n) ∧
               (∀ i, i ∈ held → nodes h0 !! i = nodes h !! i)).
  { split_and!; try done.
    - intros i n. unfold h0; simpl. rewrite lookup_delete_Some. tauto.
    - intros i Hi. unfold h0; simpl. apply lookup_delete_ne. congruence. }
  clearbody h0. revert h0 H0.
  induction (args_of h node) as [|a l IHl]; intros h0 H0; [done|].
  simpl. apply IHl.
  destruct (IH (Z.abs a) h0) as (E1 & E2 & E3 & E4).
  destruct H0 as (F1 & F2 & F3 & F4).
  split_and!; [congruence|congruence| |].
  - intros i n Hi. apply F3, E3, Hi.
  - intros i Hi. rewrite E4 by done. by apply F4.
Qed.

Lemma eval_sign fuel h ρ a :
  eval fuel h ρ a =
  v ← eval fuel h ρ (Z.abs a); Some (if decide (a < 0) then negb v else v).
Proof.
  destruct fuel as [|fuel]; [done|]. rewrite !eval_S.
  rewrite Z.abs_idemp.
  assert (Hd : ∀ b : bool, (if decide (Z.abs a < 0) then negb b else b) = b).
  { intros b. by rewrite decide_False by lia. }
  destruct (nodes h !! Z.abs a) as [[g| |]|]; simpl; rewrite ?Hd; try done.
  destruct (state g); simpl; rewrite ?Hd; try done.
  destruct (mapM (eval fuel h ρ) (args g)); simpl; rewrite ?Hd; try done.
  all: clear Hd; destruct (decide (Z.abs a < 0)); [lia|]; by destruct (decide (a < 0)).
Qed.

Lemma root_set_spec gate h :
  root_ (root_set gate h) = gate ∧
  next_index (root_set gate h) = next_index h ∧
  (∀ i n, nodes (root_set gate h) !! i = Some n → nodes h !! i = Some n) ∧
  nodes (root_set gate h) !! gate = nodes h !! gate.
Proof.
  unfold root_set.
  destruct (release_spec (release_fuel (mkHeap (nodes h) (next_index h) gate)) [gate]
              (root_ h) (mkHeap (nodes h) (next_index h) gate)) as (E1 & E2 & E3 & E4).
  split_and!; try done. apply E4. set_solver.
Qed.

(** Handing the root over to the single argument of the old root: the old
    root is deleted when nothing refers to it, and nothing else happens. *)
Lemma root_set_single_arg h s :
  args_of h (root_ h) = [s] →
  nodes (root_set (Z.abs s) h) = nodes h ∨
  (parents h (root_ h) = [] ∧
   nodes (root_set (Z.abs s) h) = delete (root_ h) (nodes h)).
Proof.
  intros Hargs. unfold root_set, release_fuel. simpl.
  case_bool_decide as Hheld; [by left|].
  case_bool_decide as Hpar; [|by left].
  right. split; [exact Hpar|].
  unfold args_of, get_gate in *. simpl. rewrite Hargs. simpl.
  destruct (size (nodes h)); simpl; [done|].
  rewrite bool_decide_eq_true_2 by set_solver. done.
Qed.

(** X3: [CheckRootGate] keeps the root sign a sign, and whenever it reports
    that no more processing is needed the root sign is +1. *)
Theorem CheckRootGate_root_sign c :
  root_sign_ c = 1 ∨ root_sign_ c = -1 →
  (root_sign_ (CheckRootGate c).2 = 1 ∨ root_sign_ (CheckRootGate c).2 = -1) ∧
  ((CheckRootGate c).1 = true → root_sign_ (CheckRootGate c).2 = 1).
Proof.
  intros Hs. unfold CheckRootGate.
  destruct (decide (state_of (heap c) (root_ (heap c)) ≠ kNormalState)).
  - destruct (decide (root_sign_ c < 0)).
    + rewrite (new_IGate_eq kNullGate). simpl. auto.
    + simpl. split; [done|]. lia.
  - destruct (decide (type_of (heap c) (root_ (heap c)) = kNullGate)).
    + destruct (gate_args (heap c) (root_ (heap c))) as [|s l]; simpl; [auto|].
      split; [|done]. case_decide; lia.
    + simpl. split; [done|]. done.
Qed.

Lemma CheckRootGate_root_sign_witness :
  let g := mkIGate kNullGate kNormalState 0 [-1] false false in
  let c := mkCore (mkHeap {[ 1 := NVariable; 2 := NGate g ]} 3 2) (-1) [] [] [] [] in
  (root_sign_ c = 1 ∨ root_sign_ c = -1) ∧
  (CheckRootGate c).1 = true ∧ root_sign_ (CheckRootGate c).2 = 1.
Proof.
  intros g c.
  assert (Hs : root_sign_ c = 1 ∨ root_sign_ c = -1) by (right; reflexivity).
  split; [exact Hs|]. split; [reflexivity|].
  exact (proj2 (CheckRootGate_root_sign c Hs) eq_refl).
Defined.

#[local] Arguments release : simpl never.

Lemma eval_gate_const fuel h ρ i g :
  0 < i → nodes h !! i = Some (NGate g) → state g ≠ kNormalState →
  eval (S fuel) h ρ i = Some (bool_decide (state g = kUnityState)).
Proof.
  intros Hi Hn Hs. rewrite eval_S.
  rewrite (Z.abs_eq i) by lia. rewrite Hn.
  destruct (state g); simpl; [done| |]; by rewrite decide_False by lia.
Qed.

Lemma eval_ext fuel h h' ρ a :
  (∀ i, nodes h' !! i = nodes h !! i) → eval fuel h' ρ a = eval fuel h ρ a.
Proof.
  intros Hag. revert a. induction fuel as [|fuel IH]; intros a; [done|].
  rewrite !eval_S, Hag.
  destruct (nodes h !! Z.abs a) as [[g| |]|]; try done.
  destruct (state g); try done.
  by rewrite (mapM_ext _ _ _ IH).
Qed.

Lemma eval_leaf fuel h h' ρ a :
  is_gate h (Z.abs a) = false → nodes h' !! Z.abs a = nodes h !! Z.abs a →
  eval fuel h' ρ a = eval fuel h ρ a.
Proof.
  intros Hig Hn. destruct fuel as [|fuel]; [done|].
  rewrite !eval_S, Hn. unfold is_gate, get_gate in Hig.
  by destruct (nodes h !! Z.abs a) as [[g| |]|].
Qed.

Lemma get_gate_nodes h i g : get_gate h i = Some g ↔ nodes h !! i = Some (NGate g).
Proof.
  unfold get_gate. destruct (nodes h !! i) as [[]|]; split; intros; by simplify_eq.
Qed.

(** X4: [CheckRootGate] does not change the Boolean function of the graph:
    the value of the root, complemented when the root sign is negative, is
    the same before and after, under every assignment of the variables. *)
Theorem CheckRootGate_preserves_value c g ρ fuel v :
  root_sign_ c = 1 ∨ root_sign_ c = -1 →
  0 < root_ (heap c) < next_index (heap c) →
  get_gate (heap c) (root_ (heap c)) = Some g →
  (state g = kNormalState → type g = kNullGate → ∃ s, args g = [s] ∧ s ≠ 0) →
  graph_value (S fuel) c ρ = Some v →
  graph_value (S fuel) (CheckRootGate c).2 ρ = Some v.
Proof.
  intros Hsign Hroot Hg Hnull Hval.
  unfold CheckRootGate. cbv zeta.
  set (h := heap c) in *. set (root := root_ h) in *.
  assert (Est : state_of h root = state g) by (unfold state_of; by rewrite Hg).
  assert (Ety : type_of h root = type g) by (unfold type_of; by rewrite Hg).
  rewrite !Est, Ety. clear Est Ety.
  destruct (decide (state g ≠ kNormalState)) as [Hst|Hst].
  - (* the root is constant *)
    destruct (decide (root_sign_ c < 0)) as [Hneg|Hneg]; [|done].
    apply get_gate_nodes in Hg.
    unfold graph_value in Hval. fold h root in Hval.
    rewrite (eval_gate_const fuel h ρ root g) in Hval by (done || lia).
    simpl in Hval. rewrite decide_True in Hval by done. simplify_eq.
    rewrite (new_IGate_eq kNullGate). cbv beta iota zeta.
    set (n := next_index h). set (h1 := (new_IGate kNullGate h).2).
    destruct (root_set_spec n h1) as (R1 & R2 & R3 & R4).
    assert (Hn : nodes (root_set n h1) !! n
                 = Some (NGate (mkIGate kNullGate kNormalState 0 [] false false))).
    { rewrite R4. unfold h1, new_IGate. simpl. by rewrite lookup_insert_eq. }
    unfold graph_value. simpl.
    assert (∀ f, root_ (with_gate n f (root_set n h1)) = n) as Hr by (by intros).
    destruct (decide (state g = kNullState)) as [E|E].
    + unfold MakeUnity. rewrite Hr.
      rewrite (eval_gate_const fuel _ ρ n (Gate.MakeUnity
                 (mkIGate kNullGate kNormalState 0 [] false false)));
        [|lia| |done].
      * simpl. rewrite E. done.
      * unfold with_gate. simpl. rewrite lookup_alter_eq, Hn. done.
    + unfold Nullify. rewrite Hr.
      rewrite (eval_gate_const fuel _ ρ n (Gate.Nullify
                 (mkIGate kNullGate kNormalState 0 [] false false)));
        [|lia| |done].
      * simpl. destruct (state g); done.
      * unfold with_gate. simpl. rewrite lookup_alter_eq, Hn. done.
  - (* the root is in the normal state *)
    destruct (decide (type g = kNullGate)) as [Hty|Hty]; [|done].
    assert (Hsn : state g = kNormalState).
    { destruct (state g); [done| |]; exfalso; by apply Hst. }
    destruct (Hnull Hsn Hty) as (s & Hargs & Hs0).
    pose proof (proj1 (get_gate_nodes h root g) Hg) as Hnode.
    (* the value of the root is the value of its argument *)
    unfold graph_value in Hval. fold h root in Hval.
    rewrite eval_S in Hval. rewrite (Z.abs_eq root) in Hval by lia.
    rewrite Hnode, Hsn, Hargs, Hty in Hval. simpl in Hval.
    destruct (eval fuel h ρ s) as [vs|] eqn:Hes; simpl in Hval; [|done].
    rewrite (decide_False (P := root < 0)) in Hval by lia.
    rewrite orb_false_r in Hval. unfold id in Hval.
    rewrite eval_sign in Hes.
    destruct (eval fuel h ρ (Z.abs s)) as [v0|] eqn:He0; simpl in Hes; [|done].
    unfold gate_args, args_of. rewrite Hg, Hargs.
    rewrite filter_cons, filter_nil.
    destruct (decide (is_gate h (Z.abs s) = true)) as [Hig|Hig].
    + (* a gate argument becomes the root *)
      destruct (root_set_spec (Z.abs s) h) as (R1 & R2 & R3 & R4).
      unfold graph_value. simpl. rewrite R1.
      assert (Hev : eval (S fuel) (root_set (Z.abs s) h) ρ (Z.abs s) = Some v0).
      { apply eval_mono.
        destruct (root_set_single_arg h s) as [Hsame|[Hpar Hdel]].
        - unfold args_of. fold root. by rewrite Hg.
        - rewrite <- He0. apply eval_ext. intros i. by rewrite Hsame.
        - rewrite <- He0. apply (eval_unreferenced _ _ _ _ root).
          + intros i Hi. rewrite Hdel. by apply lookup_delete_ne.
          + by apply parents_nil.
          + rewrite Z.abs_idemp.
            eapply (parents_nil h root Hpar root g Hnode s). rewrite Hargs. set_solver. }
      rewrite Hev. simpl. simplify_eq. f_equal.
      destruct Hsign as [-> | ->]; simpl;
        destruct (decide (s > 0)), (decide (s < 0)); try lia; simpl;
        rewrite ?decide_True by lia; rewrite ?decide_False by lia;
        by destruct v0.
    + (* a variable argument: the root stays, with its argument inverted *)
      apply not_true_is_false in Hig.
      destruct Hsign as [Hs1 | Hs1]; rewrite Hs1 in *.
      * rewrite decide_False by lia. unfold graph_value. simpl. fold h root.
        rewrite eval_S, (Z.abs_eq root), Hnode, Hsn, Hargs, Hty by lia. simpl.
        rewrite (eval_sign fuel h ρ s), He0. simpl.
        rewrite (decide_False (P := root < 0)) by lia. rewrite orb_false_r.
        rewrite (decide_False (P := 1 < 0)) in Hval by lia. by simplify_eq.
      * rewrite decide_True by lia. unfold graph_value. simpl. fold h root.
        assert (Hn' : nodes (InvertArgs root h) !! root
                      = Some (NGate (Gate.InvertArgs g))).
        { unfold InvertArgs, with_gate. simpl. by rewrite lookup_alter_eq, Hnode. }
        rewrite eval_S, (Z.abs_eq root), Hn' by lia. simpl.
        rewrite Hsn, Hargs, Hty. simpl.
        rewrite (eval_sign fuel _ ρ (- s)), Z.abs_opp.
        rewrite (eval_leaf fuel h (InvertArgs root h) ρ (Z.abs s)).
        -- rewrite He0. simpl.
           rewrite (decide_False (P := root < 0)) by lia. rewrite orb_false_r.
           rewrite (decide_True (P := -1 < 0)) in Hval by lia. simplify_eq.
           f_equal. destruct (decide (s < 0)), (decide (- s < 0)); try lia;
             by destruct v0.
        -- by rewrite Z.abs_idemp.
        -- rewrite Z.abs_idemp. unfold InvertArgs, with_gate. simpl.
           apply lookup_alter_ne. intros ->.
           unfold is_gate in Hig. by rewrite Hg in Hig.
Qed.

Lemma CheckRootGate_preserves_value_witness :
  let g := mkIGate kNullGate kNormalState 0 [-1] false false in
  let c := mkCore (mkHeap {[ 1 := NVariable; 2 := NGate g ]} 3 2) (-1) [] [] [] [] in
  let ρ := λ _ : Z, true in
  graph_value 2 c ρ = Some true ∧
  graph_value 2 (CheckRootGate c).2 ρ = Some true.
Proof.
  intros g c ρ.
  assert (Hv : graph_value 2 c ρ = Some true) by reflexivity.
  split; [exact Hv|].
  apply (CheckRootGate_preserves_value c g ρ 1 true).
  - right. reflexivity.
  - simpl. lia.
  - reflexivity.
  - intros _ _. exists (-1). split; [reflexivity|lia].
  - exact Hv.
Defined.

(** ** The head of Phase IV *)

Lemma eval_opp fuel h ρ a :
  a ≠ 0 → eval fuel h ρ (- a) = negb <$> eval fuel h ρ a.
Proof.
  intros Ha. rewrite (eval_sign fuel h ρ (- a)), (eval_sign fuel h ρ a), Z.abs_opp.
  destruct (eval fuel h ρ (Z.abs a)) as [v|]; [|done]. simpl. f_equal.
  destruct (decide (- a < 0)), (decide (a < 0)); try lia; by destruct v.
Qed.

Lemma mapM_eval_invert fuel h ρ l vs :
  Forall (λ x, x ≠ 0) l →
  mapM (eval fuel h ρ) l = Some vs →
  mapM (eval fuel h ρ) (reverse (Z.opp <$> l)) = Some (reverse (negb <$> vs)).
Proof.
  intros Hnz Hm. apply mapM_Some. apply mapM_Some in Hm.
  apply Forall2_reverse. apply Forall2_fmap.
  induction Hm as [|x y l vs Hxy Hm IH]; [constructor|].
  apply Forall_cons in Hnz as [Hx Hl].
  constructor; [|by apply IH].
  rewrite eval_opp by done. by rewrite Hxy.
Qed.

Lemma existsb_id_reverse_negb (vs : list bool) :
  existsb id (reverse (negb <$> vs)) = negb (forallb id vs).
Proof.
  induction vs as [|b vs IH]; [done|].
  rewrite fmap_cons, reverse_cons, existsb_app, IH. simpl.
  unfold id. destruct b, (forallb (λ c : bool, c) vs); done.
Qed.

Lemma forallb_id_reverse_negb (vs : list bool) :
  forallb id (reverse (negb <$> vs)) = negb (existsb id vs).
Proof.
  induction vs as [|b vs IH]; [done|].
  rewrite fmap_cons, reverse_cons, forallb_app, IH. simpl.
  unfold id. destruct b, (existsb (λ c : bool, c) vs); done.
Qed.

(** X5: the head of [PhaseFour] pushes a negative root sign into the root by
    De Morgan's law and leaves the root sign at +1, and the Boolean function of
    the graph is the same before and after. *)
Theorem absorb_root_sign_preserves_value c g ρ fuel v :
  root_sign_ c = 1 ∨ root_sign_ c = -1 →
  0 < root_ (heap c) →
  get_gate (heap c) (root_ (heap c)) = Some g →
  state g = kNormalState →
  type g = kOrGate ∨ type g = kAndGate ∨ type g = kNullGate →
  (type g = kNullGate → length (args g) = 1%nat) →
  Forall (λ x, x ≠ 0) (args g) →
  parents (heap c) (root_ (heap c)) = [] →
  graph_value (S fuel) c ρ = Some v →
  root_sign_ (absorb_root_sign c) = 1 ∧
  graph_value (S fuel) (absorb_root_sign c) ρ = Some v.
Proof.
  intros Hsign Hroot Hg Hsn Hty Hone Hnz Hpar Hval.
  unfold absorb_root_sign. cbv zeta.
  destruct (decide (root_sign_ c < 0)) as [Hneg|Hneg]; [|split; [lia|done]].
  split; [done|].
  set (h := heap c) in *. set (root := root_ h) in *.
  assert (Ety : type_of h root = type g) by (unfold type_of; by rewrite Hg).
  rewrite !Ety. clear Ety.
  pose proof (proj1 (get_gate_nodes h root g) Hg) as Hnode.
  unfold graph_value in Hval. fold h root in Hval.
  rewrite eval_S, (Z.abs_eq root), Hnode, Hsn in Hval by lia.
  destruct (mapM (eval fuel h ρ) (args g)) as [vs|] eqn:Hm; [|done].
  simpl in Hval.
  rewrite (decide_False (P := root < 0)), (decide_True (P := root_sign_ c < 0))
    in Hval by lia.
  set (t' := if decide (type g = kOrGate ∨ type g = kAndGate)
             then (if decide (type g = kOrGate) then kAndGate else kOrGate)
             else type g).
  set (h' := InvertArgs root
               (if decide (type g = kOrGate ∨ type g = kAndGate)
                then type_set root (if decide (type g = kOrGate)
                                    then kAndGate else kOrGate) h
                else h)).
  assert (Hn' : nodes h' !! root
                = Some (NGate (Gate.InvertArgs (set_type t' g)))).
  { unfold h', t', InvertArgs, type_set, with_gate. simpl.
    destruct (decide (type g = kOrGate ∨ type g = kAndGate)); simpl.
    - by rewrite !lookup_alter_eq, Hnode.
    - rewrite lookup_alter_eq, Hnode. simpl. by destruct g. }
  assert (Ho : ∀ i, i ≠ root → nodes h' !! i = nodes h !! i).
  { intros i Hi. unfold h', InvertArgs, type_set, with_gate. simpl.
    destruct (decide (type g = kOrGate ∨ type g = kAndGate)); simpl.
    - by rewrite !lookup_alter_ne.
    - by rewrite lookup_alter_ne. }
  assert (Hr' : root_ h' = root).
  { unfold h'. by destruct (decide (type g = kOrGate ∨ type g = kAndGate)). }
  clearbody h'. unfold graph_value. simpl. rewrite Hr'.
  rewrite eval_S, (Z.abs_eq root), Hn' by lia. simpl. rewrite Hsn.
  assert (Hm' : mapM (eval fuel h' ρ) (reverse (Z.opp <$> args g))
                = Some (reverse (negb <$> vs))).
  { rewrite <- (mapM_eval_invert fuel h ρ (args g) vs Hnz Hm).
    apply mapM_ext_in. intros x Hx.
    apply (eval_unreferenced fuel h h' ρ root x Ho (parents_nil h root Hpar)).
    apply elem_of_reverse, list_elem_of_fmap in Hx as (y & -> & Hy).
    rewrite Z.abs_opp. by apply (parents_nil h root Hpar root g Hnode y). }
  rewrite Hm'. simpl.
  rewrite (decide_False (P := root < 0)) by lia.
  simplify_eq. f_equal. unfold t'.
  destruct Hty as [Ht|[Ht|Ht]]; rewrite Ht in *; simpl.
  - by rewrite forallb_id_reverse_negb.
  - by rewrite existsb_id_reverse_negb.
  - specialize (Hone eq_refl).
    apply length_mapM in Hm. rewrite Hone in Hm.
    destruct vs as [|b [|??]]; try done. by destruct b.
Qed.

Lemma absorb_root_sign_preserves_value_witness :
  let g := mkIGate kOrGate kNormalState 0 [-1; 2] false false in
  let c := mkCore (mkHeap {[ 1 := NVariable; 2 := NVariable; 3 := NGate g ]} 4 3)
                  (-1) [] [] [] [] in
  let ρ := λ i : Z, bool_decide (i = 1) in
  graph_value 2 c ρ = Some true ∧
  root_sign_ (absorb_root_sign c) = 1 ∧
  graph_value 2 (absorb_root_sign c) ρ = Some true.
Proof.
  intros g c ρ.
  assert (Hv : graph_value 2 c ρ = Some true) by reflexivity.
  split; [exact Hv|].
  apply (absorb_root_sign_preserves_value c g ρ 1 true).
  - right. reflexivity.
  - simpl. lia.
  - reflexivity.
  - reflexivity.
  - left. reflexivity.
  - intros H. discriminate H.
  - repeat constructor; lia.
  - reflexivity.
  - exact Hv.
Defined.

(** ** Partial normalization of one gate *)

Ltac rewritten t' :=
  match goal with
  | Hg : get_gate ?h ?gate = Some ?g, Hs : state ?g = kNormalState |- _ =>
      exists (type_set gate t' h), (set_type t' g);
      split; [reflexivity|];
      split; [unfold type_set; by rewrite (get_gate_with_gate_eq h gate _ g)|];
      split; [intros j Hj; unfold type_set; by apply nodes_with_gate_ne|];
      split; [reflexivity|]; split; [reflexivity|]; split; [exact Hs|];
      split; [reflexivity|];
      rewrite gate_value_normal by exact Hs; simpl; rewrite ?negb_involutive;
      reflexivity
  end.

Ltac unchanged :=
  match goal with
  | Hg : get_gate ?h ?gate = Some ?g, Hs : state ?g = kNormalState,
    Et : type ?g = _ |- _ =>
      exists h, g; rewrite Et; split; [reflexivity|];
      split; [exact Hg|]; split; [done|];
      split; [reflexivity|]; split; [reflexivity|]; split; [exact Hs|];
      split; [reflexivity|];
      rewrite gate_value_normal by exact Hs; rewrite Et; reflexivity
  end.

(** X6: without full normalization the [switch] of [NormalizeGate] always
    returns and touches nothing but the kind of the gate: the arguments stay,
    the kind that is left is not a negative one, the function of the gate is
    complemented exactly for the kinds that [NotifyParentsOfNegativeGates]
    takes for negative, and the gate is registered as a NULL gate exactly when
    it has become or already was one. *)
Theorem NormalizeGate_switch_partial fuel gate h null_gates g val :
  get_gate h gate = Some g →
  state g = kNormalState →
  ∃ h' g',
    NormalizeGate_switch fuel gate false (h, null_gates)
      = Some (h', if decide (type g' = kNullGate)
                  then null_gates ++ [gate] else null_gates) ∧
    get_gate h' gate = Some g' ∧
    (∀ j, j ≠ gate → nodes h' !! j = nodes h !! j) ∧
    next_index h' = next_index h ∧
    args g' = args g ∧
    state g' = kNormalState ∧
    negative_kind (type g') = false ∧
    gate_value val g' =
      (if negative_kind (type g) then negb (gate_value val g) else gate_value val g).
Proof.
  intros Hg Hs.
  assert (Ht : type_of h gate = type g) by (unfold type_of; by rewrite Hg).
  unfold NormalizeGate_switch. simpl fst. rewrite Ht.
  rewrite !gate_value_normal by done.
  destruct (type g) eqn:Et.
  - rewritten kAndGate.
  - rewritten kOrGate.
  - unchanged.
  - unchanged.
  - rewritten kNullGate.
  - rewritten kAndGate.
  - rewritten kOrGate.
  - unchanged.
Qed.

Lemma NormalizeGate_switch_partial_witness :
  let g := mkIGate kNandGate kNormalState 0 [1; -2] false false in
  let h := mkHeap {[ 1 := NVariable; 2 := NVariable; 3 := NGate g ]} 4 3 in
  let val := λ i : Z, bool_decide (i = 1) in
  (get_gate h 3 = Some g ∧ state g = kNormalState) ∧
  ∃ h' g',
    NormalizeGate_switch 0 3 false (h, []) = Some (h', []) ∧
    get_gate h' 3 = Some g' ∧
    gate_value val g' = negb (gate_value val g).
Proof.
  intros g h val.
  assert (Hg : get_gate h 3 = Some g) by reflexivity.
  assert (Hs : state g = kNormalState) by reflexivity.
  split; [split; [exact Hg|exact Hs]|].
  destruct (NormalizeGate_switch_partial 0 3 h [] g val Hg Hs)
    as (h' & g' & Hrun & Hg' & _ & _ & _ & _ & _ & Hval).
  exists h', g'. split; [|split; [exact Hg'|exact Hval]].
  rewrite Hrun. f_equal. f_equal.
  assert (type g' = kAndGate) as Hty.
  { vm_compute in Hrun. injection Hrun as Hh _. subst h'.
    vm_compute in Hg'. by injection Hg' as <-. }
  rewrite Hty. reflexivity.
Defined.

(** ** Normalization of XOR gates keeps the function of the gate *)

(** The store after [NormalizeXorGate]. *)
Lemma NormalizeXorGate_result h gate g a b :
  get_gate h gate = Some g →
  args g = [a; b] →
  a < b →
  a ≠ - b →
  allocated h a →
  allocated h b →
  gate < next_index h →
  let h' := NormalizeXorGate gate h in
  let n := next_index h in
  get_gate h' gate = Some (set_args [n; n + 1] (set_type kOrGate g)) ∧
  get_gate h' n =
    Some (mkIGate kAndGate kNormalState 0 (IntSet.of_list [a; - b]) true false) ∧
  get_gate h' (n + 1) =
    Some (mkIGate kAndGate kNormalState 0 (IntSet.of_list [- a; b]) true false) ∧
  (∀ j, j ≠ gate → j < n → nodes h' !! j = nodes h !! j).
Proof.
  intros Hg Ha Hab Hnc Aa Ab Hlt. unfold allocated in *.
  assert (- next_index h < a < next_index h ∧ - next_index h < b < next_index h)
    as [Ba Bb] by lia.
  clear Aa Ab. cbv zeta.
  unfold NormalizeXorGate, args_of. rewrite Hg, Ha.
  rewrite (new_IGate_eq _ h). cbv beta iota zeta.
  rewrite (new_IGate_eq _ (new_IGate kAndGate h).2). cbv beta iota zeta.
  rewrite next_index_new_IGate.
  set (n := next_index h) in *.
  set (h1 := (new_IGate kAndGate (new_IGate kAndGate h).2).2).
  assert (H1g : get_gate h1 gate = Some g).
  { subst h1. read_gate. done. }
  assert (H1n : get_gate h1 n = Some (mkIGate kAndGate kNormalState 0 [] false false)).
  { subst h1. read_gate. done. }
  assert (H1m : get_gate h1 (n + 1)
                = Some (mkIGate kAndGate kNormalState 0 [] false false)).
  { subst h1. read_gate. done. }
  assert (H1o : ∀ j, j < n → nodes h1 !! j = nodes h !! j).
  { intros j Hj. subst h1. rewrite !nodes_new_IGate_ne; [done|lia|].
    rewrite next_index_new_IGate. lia. }
  clearbody h1.
  do 4 (share_arg ltac:(to_with_gate; read_gate; rewrite H1g; reflexivity);
        [|simpl; rewrite Ha; set_solver]).
  split_and!.
  - to_with_gate. read_gate. rewrite H1g. simpl. f_equal.
    gate_fields. decide_fields. by destruct g.
  - to_with_gate. read_gate. rewrite H1n. simpl. f_equal.
    gate_fields. decide_fields. f_equal. repeat case_decide; (done || lia).
  - to_with_gate. read_gate. rewrite H1m. simpl. f_equal.
    gate_fields. decide_fields. f_equal. repeat case_decide; (done || lia).
  - intros j Hj Hjn. to_with_gate. rewrite !nodes_with_gate_ne by lia. by apply H1o.
Qed.

(** In an acyclic store, the value of a node depends only on the nodes below
    it. *)
Lemma eval_stable (rank : Z → nat) r h h' ρ :
  (∀ i gi x, nodes h !! i = Some (NGate gi) → x ∈ args gi →
             (rank (Z.abs x) < rank i)%nat) →
  (∀ i n, nodes h !! i = Some n → (rank i < r)%nat → nodes h' !! i = Some n) →
  ∀ fuel a v,
    (rank (Z.abs a) < r)%nat →
    eval fuel h ρ a = Some v → eval fuel h' ρ a = Some v.
Proof.
  intros Hacyclic Hagree. induction fuel as [|fuel IH]; intros a v Hr; [done|].
  rewrite !eval_S.
  destruct (nodes h !! Z.abs a) as [n|] eqn:Hn; [|done].
  rewrite (Hagree _ n Hn Hr).
  destruct n as [g| |]; try done.
  destruct (state g); try done.
  destruct (mapM (eval fuel h ρ) (args g)) as [vs|] eqn:Hm; [|done].
  assert (mapM (eval fuel h' ρ) (args g) = Some vs) as ->; [|done].
  apply mapM_Some. apply mapM_Some in Hm.
  apply Forall2_same_length_lookup. apply Forall2_same_length_lookup in Hm.
  destruct Hm as [Hlen Hm]. split; [done|].
  intros i x y Hx Hy. apply IH; [|by apply (Hm i)].
  assert (rank (Z.abs x) < rank (Z.abs a))%nat; [|lia].
  apply (Hacyclic _ g); [done|]. by eapply list_elem_of_lookup_2.
Qed.

(** X13: in an acyclic graph, [NormalizeXorGate] keeps the Boolean function
    of the gate: under every assignment of the variables the rewritten gate,
    one level deeper, has the value the XOR gate had. *)
Theorem NormalizeXorGate_preserves_value (rank : Z → nat) h gate g a b ρ fuel v :
  get_gate h gate = Some g →
  type g = kXorGate →
  state g = kNormalState →
  args g = [a; b] →
  a < b →
  a ≠ - b →
  allocated h a →
  allocated h b →
  0 < gate < next_index h →
  heap_bounded h →
  (∀ i gi x, nodes h !! i = Some (NGate gi) → x ∈ args gi →
             (rank (Z.abs x) < rank i)%nat) →
  eval (S fuel) h ρ gate = Some v →
  eval (S (S fuel)) (NormalizeXorGate gate h) ρ gate = Some v.
Proof.
  intros Hg Ht Hs Ha Hab Hnc Aa Ab Hgate Hb Hacyclic Hv.
  destruct (NormalizeXorGate_result h gate g a b Hg Ha Hab Hnc Aa Ab)
    as (Eg & En & Em & Hframe); [lia|].
  set (h' := NormalizeXorGate gate h) in *. set (n := next_index h) in *.
  pose proof (proj1 (get_gate_nodes h gate g) Hg) as Hnode.
  apply get_gate_nodes in Eg, En, Em.
  (* the value before *)
  rewrite eval_S, (Z.abs_eq gate), Hnode, Hs, Ha, Ht in Hv by lia.
  simpl in Hv.
  destruct (eval fuel h ρ a) as [va|] eqn:Eva; [|done]. simpl in Hv.
  destruct (eval fuel h ρ b) as [vb|] eqn:Evb; [|done]. simpl in Hv.
  rewrite (decide_False (P := gate < 0)) in Hv by lia.
  (* the arguments keep their values *)
  assert (Hagree : ∀ i nd, nodes h !! i = Some nd → (rank i < rank gate)%nat →
                           nodes h' !! i = Some nd).
  { intros i nd Hi Hr. rewrite Hframe; [done| |by eapply Hb].
    intros ->. lia. }
  assert (Ra : (rank (Z.abs a) < rank gate)%nat).
  { apply (Hacyclic gate g a Hnode). rewrite Ha. set_solver. }
  assert (Rb : (rank (Z.abs b) < rank gate)%nat).
  { apply (Hacyclic gate g b Hnode). rewrite Ha. set_solver. }
  pose proof (eval_stable rank (rank gate) h h' ρ Hacyclic Hagree fuel a va Ra Eva)
    as Eva'.
  pose proof (eval_stable rank (rank gate) h h' ρ Hacyclic Hagree fuel b vb Rb Evb)
    as Evb'.
  assert (Ena : eval fuel h' ρ (- a) = Some (negb va)).
  { rewrite eval_opp, Eva'; [done|]. unfold allocated in Aa. lia. }
  assert (Enb : eval fuel h' ρ (- b) = Some (negb vb)).
  { rewrite eval_opp, Evb'; [done|]. unfold allocated in Ab. lia. }
  (* the two new gates *)
  assert (E1 : eval (S fuel) h' ρ n = Some (va && negb vb)).
  { rewrite eval_S, (Z.abs_eq n), En by (unfold n; lia). simpl.
    destruct (decide (a < - b)); [|destruct (decide (a = - b)); [done|]]; simpl;
      rewrite ?Eva', ?Enb; simpl; rewrite ?Eva', ?Enb; simpl;
      rewrite (decide_False (P := n < 0)) by (unfold n; lia);
      unfold id; by destruct va, vb. }
  assert (E2 : eval (S fuel) h' ρ (n + 1) = Some (negb va && vb)).
  { rewrite eval_S, (Z.abs_eq (n + 1)), Em by (unfold n; lia). simpl.
    destruct (decide (- a < b)); [|destruct (decide (- a = b)); [lia|]]; simpl;
      rewrite ?Evb', ?Ena; simpl; rewrite ?Evb', ?Ena; simpl;
      rewrite (decide_False (P := n + 1 < 0)) by (unfold n; lia);
      unfold id; by destruct va, vb. }
  rewrite eval_S, (Z.abs_eq gate), Eg by lia. simpl. rewrite Hs.
  rewrite E1. simpl. rewrite E2. simpl.
  rewrite (decide_False (P := gate < 0)) by lia.
  simplify_eq. f_equal. unfold id. by destruct va, vb.
Qed.

Lemma NormalizeXorGate_preserves_value_witness :
  let g := mkIGate kXorGate kNormalState 0 [1; 2] false false in
  let h := mkHeap {[ 1 := NVariable; 2 := NVariable; 3 := NGate g ]} 4 3 in
  let ρ := λ i : Z, bool_decide (i = 1) in
  eval 2 h ρ 3 = Some true ∧
  eval 3 (NormalizeXorGate 3 h) ρ 3 = Some true.
Proof.
  intros g h ρ.
  assert (Hv : eval 2 h ρ 3 = Some true) by reflexivity.
  split; [exact Hv|].
  apply (NormalizeXorGate_preserves_value
           (λ i, if decide (i = 3) then 1%nat else 0%nat) h 3 g 1 2 ρ 1 true).
  - reflexivity.
  - reflexivity.
  - reflexivity.
  - reflexivity.
  - lia.
  - lia.
  - unfold allocated. simpl. lia.
  - unfold allocated. simpl. lia.
  - simpl. lia.
  - intros i n Hi. simpl in *.
    rewrite !lookup_insert_Some, lookup_singleton_Some in Hi. lia.
  - intros i gi x Hi Hx. simpl in Hi.
    rewrite !lookup_insert_Some, lookup_singleton_Some in Hi.
    destruct Hi as [[_ Hi]|[_ [[_ Hi]|[_ [<- Hi]]]]]; try discriminate Hi.
    injection Hi as <-. simpl in Hx.
    apply elem_of_cons in Hx as [->|Hx]; [simpl; lia|].
    apply elem_of_cons in Hx as [->|Hx]; [simpl; lia|].
    by apply elem_of_nil in Hx.
  - exact Hv.
Defined.

(** ** Grouping of modular arguments *)

Section GroupModularArgsFacts.
Variables min_time max_time : Z → Z.
Local Abbreviation sweep := (sweep min_time max_time).
Local Abbreviation grow_group := (grow_group min_time max_time).
Local Abbreviation group_members := (group_members min_time max_time).
Local Abbreviation separated := (separated min_time max_time).

(** The range of [a] lies within [low, high]. *)
Local Abbreviation within := (λ (low high a : Z),
  low ≤ min_time (Z.abs a) ∧ max_time (Z.abs a) ≤ high).
(** The range of [a] does not meet [low, high]. *)
Local Abbreviation apart := (λ (low high a : Z),
  DetectOverlap (min_time (Z.abs a)) (max_time (Z.abs a)) low high = false).

Lemma apart_within low high a b :
  apart low high b → within low high a → overlaps min_time max_time b a = false.
Proof.
  unfold overlaps, DetectOverlap. intros Hb [H1 H2].
  apply bool_decide_eq_false in Hb. apply bool_decide_eq_false. lia.
Qed.

Lemma overlaps_sym a b :
  overlaps min_time max_time a b = overlaps min_time max_time b a.
Proof. unfold overlaps, DetectOverlap. apply bool_decide_ext. lia. Qed.

Lemma sweep_spec member_list :
  ∀ group low high rest group' low' high',
    sweep member_list group low high = (rest, group', low', high') →
    ∃ added,
      group' = group ++ added ∧
      rest ++ added ≡ₚ member_list ∧
      (Forall (within low high) group → Forall (within low' high') group') ∧
      (added = [] → low' = low ∧ high' = high ∧ Forall (apart low high) rest).
Proof.
  induction member_list as [|it ml IH]; intros group low high rest g' low' high' E.
  - simpl in E. simplify_eq. exists []. rewrite app_nil_r. by split_and!.
  - simpl in E.
    destruct (DetectOverlap (min_time (Z.abs it)) (max_time (Z.abs it)) low high)
      eqn:Ho.
    + apply IH in E as (added & -> & Hp & Hw & _).
      exists (it :: added). split_and!.
      * by rewrite <- (assoc (++)).
      * rewrite <- Permutation_middle. by constructor.
      * intros Hg. apply Hw. apply Forall_app. split.
        -- eapply Forall_impl; [exact Hg|]. simpl. intros a [? ?]. lia.
        -- constructor; [|constructor]. lia.
      * intros ?. done.
    + destruct (sweep ml group low high) as [[[rest0 g0] low0] high0] eqn:E0.
      simplify_eq.
      apply IH in E0 as (added & -> & Hp & Hw & Hnone).
      exists added. split_and!; [done| |done|].
      * simpl. by constructor.
      * intros Ha. destruct (Hnone Ha) as (-> & -> & Hrest).
        split_and!; [done|done|]. by constructor.
Qed.

Lemma grow_group_spec fuel :
  ∀ prev_size member_list group low high,
    (1 ≤ fuel)%nat →
    ((prev_size < length group)%nat → (length member_list + 2 ≤ fuel)%nat) →
    ((length group ≤ prev_size)%nat → Forall (apart low high) member_list) →
    Forall (within low high) group →
    ∃ rest added low' high',
      grow_group fuel prev_size member_list group low high
        = Some (rest, group ++ added) ∧
      rest ++ added ≡ₚ member_list ∧
      Forall (within low' high') (group ++ added) ∧
      Forall (apart low' high') rest.
Proof.
  induction fuel as [|fuel IH]; intros prev ml group low high H1 Hfuel Hstop Hw;
    [lia|].
  simpl. case_bool_decide as Hlt.
  - destruct (sweep ml group low high) as [[[ml1 g1] low1] high1] eqn:E.
    apply sweep_spec in E as (add1 & -> & Hp & Hw1 & Hnone).
    specialize (Hfuel Hlt).
    assert (Hlen : (length ml1 + length add1 = length ml)%nat).
    { apply Permutation_length in Hp. by rewrite length_app in Hp. }
    destruct (IH (length group) ml1 (group ++ add1) low1 high1)
      as (rest & added & low' & high' & Hrun & Hp' & Hw' & Ha').
    + lia.
    + rewrite length_app. intros ?. lia.
    + rewrite length_app. intros Hle.
      assert (add1 = []) as Hnil by (destruct add1; [done|simpl in Hle; lia]).
      destruct (Hnone Hnil) as (-> & -> & Hr). done.
    + by apply Hw1.
    + exists rest, (add1 ++ added), low', high'. split_and!.
      * by rewrite (assoc (++)).
      * rewrite (Permutation_app_comm add1 added), (assoc (++)), Hp'. done.
      * by rewrite (assoc (++)).
      * done.
  - exists ml, [], low, high. rewrite !app_nil_r.
    split_and!; [done|done|done|]. apply Hstop. lia.
Qed.

Lemma group_members_spec fuel :
  ∀ member_list groups,
    (length member_list + 2 ≤ fuel)%nat →
    ∃ new,
      group_members fuel member_list groups = Some (groups ++ new) ∧
      concat new ≡ₚ member_list ∧
      Forall (λ g, g ≠ []) new ∧
      separated new.
Proof.
  induction fuel as [|fuel IH]; intros ml groups Hfuel; [lia|].
  simpl. destruct ml as [|front ml].
  { exists []. rewrite app_nil_r. by split_and!. }
  simpl in Hfuel.
  destruct (grow_group_spec fuel 0 ml [front]
              (min_time (Z.abs front)) (max_time (Z.abs front)))
    as (rest & added & low' & high' & Hrun & Hp & Hw & Ha).
  - lia.
  - intros _. lia.
  - simpl. lia.
  - constructor; [lia|constructor].
  - rewrite Hrun. simpl.
    assert (Hlen : (length rest + length added = length ml)%nat).
    { apply Permutation_length in Hp. by rewrite length_app in Hp. }
    destruct (IH rest (groups ++ [front :: added])) as (new & Hrec & Hc & Hne & Hsep);
      [lia|].
    rewrite Hrec. exists ((front :: added) :: new). split_and!.
    + by rewrite <- (assoc (++)).
    + simpl. constructor. rewrite Hc, (Permutation_app_comm added rest). done.
    + by constructor.
    + simpl. split; [|done]. intros a b Ha' Hb. rewrite Hc in Hb.
      rewrite overlaps_sym. apply (apart_within low' high').
      * by eapply Forall_forall in Ha.
      * by eapply (proj1 (Forall_forall _ _) Hw a).
Qed.

Lemma separated_lookup groups :
  separated groups →
  ∀ i j gi gj a b,
    (i < j)%nat → groups !! i = Some gi → groups !! j = Some gj →
    a ∈ gi → b ∈ gj → overlaps min_time max_time a b = false.
Proof.
  induction groups as [|g groups IH]; intros Hsep i j gi gj a b Hij Hi Hj Ha Hb;
    [done|].
  destruct Hsep as [Hhead Htail].
  destruct j as [|j]; [lia|]. simpl in Hj.
  destruct i as [|i]; simpl in Hi.
  - simplify_eq. apply Hhead; [done|]. apply list_elem_of_In, in_concat.
    exists gj. split; apply list_elem_of_In; [|done].
    by eapply list_elem_of_lookup_2.
  - apply (IH Htail i j gi gj); try done. lia.
Qed.

(** X9: given a budget above the number of arguments, [GroupModularArgs]
    returns; the groups are not empty and together hold exactly the
    arguments it was given, each one in one group. *)
Theorem GroupModularArgs_partition fuel modular_args :
  (length modular_args + 2 ≤ fuel)%nat →
  ∃ groups,
    GroupModularArgs min_time max_time fuel modular_args = Some groups ∧
    concat groups ≡ₚ modular_args ∧
    Forall (λ g, g ≠ []) groups.
Proof.
  intros Hfuel. unfold GroupModularArgs.
  case_bool_decide as He.
  - subst. exists []. by split_and!.
  - destruct (group_members_spec fuel modular_args [] Hfuel)
      as (new & Hrun & Hc & Hne & _).
    exists new. by split_and!.
Qed.

(** X10: no argument of one group made by [GroupModularArgs] overlaps in visit
    times with an argument of another group. *)
Theorem GroupModularArgs_separates fuel modular_args groups :
  (length modular_args + 2 ≤ fuel)%nat →
  GroupModularArgs min_time max_time fuel modular_args = Some groups →
  ∀ i j gi gj a b,
    i ≠ j → groups !! i = Some gi → groups !! j = Some gj →
    a ∈ gi → b ∈ gj → overlaps min_time max_time a b = false.
Proof.
  intros Hfuel Hrun.
  assert (Hsep : separated groups).
  { unfold GroupModularArgs in Hrun. case_bool_decide as He.
    - by simplify_eq.
    - destruct (group_members_spec fuel modular_args [] Hfuel)
        as (new & Hrun' & _ & _ & Hsep).
      rewrite Hrun' in Hrun. by simplify_eq. }
  intros i j gi gj a b Hij Hi Hj Ha Hb.
  destruct (decide (i < j)%nat).
  - by apply (separated_lookup groups Hsep i j gi gj).
  - rewrite overlaps_sym. apply (separated_lookup groups Hsep j i gj gi); try done.
    lia.
Qed.

End GroupModularArgsFacts.

Lemma GroupModularArgs_partition_witness :
  let min_time := λ i : Z, 10 * i in
  let max_time := λ i : Z, if decide (i = 1) then 25 else 10 * i + 5 in
  (length [1; 4; -2]%Z + 2 ≤ 5)%nat ∧
  ∃ groups,
    GroupModularArgs min_time max_time 5 [1; 4; -2] = Some groups ∧
    concat groups ≡ₚ [1; 4; -2] ∧
    Forall (λ g, g ≠ []) groups.
Proof.
  intros min_time max_time.
  assert (Hlen : (length [1; 4; -2]%Z + 2 ≤ 5)%nat) by (simpl; lia).
  split; [exact Hlen|].
  exact (GroupModularArgs_partition min_time max_time 5 [1; 4; -2] Hlen).
Defined.

Lemma GroupModularArgs_separates_witness :
  let min_time := λ i : Z, 10 * i in
  let max_time := λ i : Z, if decide (i = 1) then 25 else 10 * i + 5 in
  (length [1; 4; -2]%Z + 2 ≤ 5)%nat ∧
  GroupModularArgs min_time max_time 5 [1; 4; -2] = Some [[1; -2]; [4]] ∧
  overlaps min_time max_time (-2) 4 = false.
Proof.
  intros min_time max_time.
  assert (Hlen : (length [1; 4; -2]%Z + 2 ≤ 5)%nat) by (simpl; lia).
  assert (Hrun : GroupModularArgs min_time max_time 5 [1; 4; -2]
                 = Some [[1; -2]; [4]]) by reflexivity.
  split; [exact Hlen|]. split; [exact Hrun|].
  apply (GroupModularArgs_separates min_time max_time 5 [1; 4; -2] [[1; -2]; [4]]
           Hlen Hrun 0%nat 1%nat [1; -2] [4]).
  - lia.
  - reflexivity.
  - reflexivity.
  - set_solver.
  - set_solver.
Defined.

(** ** Common parents *)

Lemma set_intersection_nil_r l1 : set_intersection l1 [] = [].
Proof. by destruct l1. Qed.

Lemma set_intersection_cons x l1 y l2 :
  set_intersection (x :: l1) (y :: l2) =
  if decide (x < y) then set_intersection l1 (y :: l2)
  else if decide (y < x) then set_intersection (x :: l1) l2
  else x :: set_intersection l1 l2.
Proof. done. Qed.

Lemma set_intersection_sound l1 :
  ∀ l2 x, x ∈ set_intersection l1 l2 → x ∈ l1 ∧ x ∈ l2.
Proof.
  induction l1 as [|a l1 IH1]; intros l2 x; [by destruct l2; intros ?%elem_of_nil|].
  induction l2 as [|b l2 IH2]; [by intros ?%elem_of_nil|].
  rewrite set_intersection_cons.
  destruct (decide (a < b)); [|destruct (decide (b < a))].
  - intros H%IH1. set_solver.
  - intros H%IH2. set_solver.
  - assert (a = b) as -> by lia.
    intros [->|H%IH1]%elem_of_cons; set_solver.
Qed.

Lemma set_intersection_complete l1 :
  ∀ l2 x, StronglySorted Z.lt l1 → StronglySorted Z.lt l2 →
    x ∈ l1 → x ∈ l2 → x ∈ set_intersection l1 l2.
Proof.
  induction l1 as [|a l1 IH1]; intros l2 x S1; [by intros _ ?%elem_of_nil|].
  apply StronglySorted_inv in S1 as [S1 F1].
  induction l2 as [|b l2 IH2]; intros S2' H1 H2; [by apply elem_of_nil in H2|].
  pose proof S2' as [S2 F2]%StronglySorted_inv.
  rewrite set_intersection_cons.
  rewrite Forall_forall in F1, F2.
  destruct (decide (a < b)); [|destruct (decide (b < a))].
  - apply IH1; [done|done| |done].
    apply elem_of_cons in H1 as [->|H1]; [|done].
    apply elem_of_cons in H2 as [->|H2]; [lia|]. specialize (F2 _ H2). lia.
  - apply IH2; [done|done|].
    apply elem_of_cons in H2 as [->|H2]; [|done].
    apply elem_of_cons in H1 as [->|H1]; [lia|]. specialize (F1 _ H1). lia.
  - assert (a = b) as -> by lia.
    apply elem_of_cons in H1 as [->|H1]; [by left|].
    apply elem_of_cons in H2 as [->|H2]; [by left|].
    right. by apply IH1.
Qed.

Section CommonParents.
Variable num_common_args : Z.
Hypothesis num_range : 0 ≤ num_common_args < 2 ^ 64.

Local Abbreviation all_justified := (λ (group : list (Z * list Z)) (parents : Collection),
  ∀ common p, recorded parents common p → justified num_common_args group common p).

Lemma to_size_t_num : to_size_t num_common_args = num_common_args.
Proof. unfold to_size_t. by rewrite Z.mod_small. Qed.

Lemma common_parents_of_pair_justified group gi gj parents :
  gi ∈ group → gj ∈ group →
  all_justified group parents →
  all_justified group (common_parents_of_pair num_common_args gi gj parents).
Proof.
  intros Hi Hj Hall. unfold common_parents_of_pair. cbv zeta.
  rewrite to_size_t_num.
  destruct (decide (Z.of_nat (length (set_intersection gi.2 gj.2)) < num_common_args))
    as [|Hlen]; [done|].
  intros common p (ps & Hl & Hp).
  destruct (decide (common = set_intersection gi.2 gj.2)) as [->|Hne].
  - rewrite lookup_insert_eq in Hl. simplify_eq.
    apply elem_of_union in Hp as [Hp|Hp]; [|apply elem_of_union in Hp as [Hp|Hp]].
    + apply elem_of_singleton in Hp as ->. split; [lia|].
      exists gj.2. split; [by destruct gj|].
      intros x Hx. by apply set_intersection_sound in Hx as [_ ?].
    + apply elem_of_singleton in Hp as ->. split; [lia|].
      exists gi.2. split; [by destruct gi|].
      intros x Hx. by apply set_intersection_sound in Hx as [? _].
    + destruct (parents !! set_intersection gi.2 gj.2) as [ps0|] eqn:E;
        simpl in Hp; [|set_solver].
      apply Hall. by exists ps0.
  - rewrite lookup_insert_ne in Hl by done. apply Hall. by exists ps.
Qed.

Lemma foldl_pairs_justified group gi rest :
  ∀ parents,
    gi ∈ group → (∀ gj, gj ∈ rest → gj ∈ group) →
    all_justified group parents →
    all_justified group
      (foldl (λ parents gj, common_parents_of_pair num_common_args gi gj parents)
             parents rest).
Proof.
  induction rest as [|gj rest IH]; intros parents Hi Hsub Hall; [done|].
  simpl. apply IH; [done|set_solver|].
  apply common_parents_of_pair_justified; [done|set_solver|done].
Qed.

Lemma GroupCommonParents_justified group :
  ∀ sub parents,
    (∀ g, g ∈ sub → g ∈ group) →
    all_justified group parents →
    all_justified group (GroupCommonParents num_common_args sub parents).
Proof.
  intros sub. induction sub as [|gi rest IH]; intros parents Hsub Hall; [done|].
  simpl. apply IH; [set_solver|].
  apply foldl_pairs_justified; [set_solver|set_solver|done].
Qed.

Lemma common_parents_of_pair_mono gi gj parents common p :
  recorded parents common p →
  recorded (common_parents_of_pair num_common_args gi gj parents) common p.
Proof.
  intros (ps & Hl & Hp). unfold common_parents_of_pair. cbv zeta.
  case_decide; [by exists ps|].
  destruct (decide (common = set_intersection gi.2 gj.2)) as [->|Hne].
  - rewrite Hl. eexists. rewrite lookup_insert_eq. split; [done|]. set_solver.
  - exists ps. by rewrite lookup_insert_ne.
Qed.

Lemma common_parents_of_pair_records gi gj parents :
  num_common_args ≤ Z.of_nat (length (set_intersection gi.2 gj.2)) →
  recorded (common_parents_of_pair num_common_args gi gj parents)
           (set_intersection gi.2 gj.2) gi.1 ∧
  recorded (common_parents_of_pair num_common_args gi gj parents)
           (set_intersection gi.2 gj.2) gj.1.
Proof.
  intros Hlen. unfold common_parents_of_pair. cbv zeta.
  rewrite to_size_t_num. rewrite decide_False by lia.
  split; eexists; rewrite lookup_insert_eq; (split; [done|]); set_solver.
Qed.

Lemma foldl_pairs_mono gi rest common p :
  ∀ parents,
    recorded parents common p →
    recorded (foldl (λ parents gj, common_parents_of_pair num_common_args gi gj parents)
                    parents rest) common p.
Proof.
  induction rest as [|g rest IH]; intros parents H; [done|].
  simpl. apply IH. by apply common_parents_of_pair_mono.
Qed.

Lemma GroupCommonParents_mono group common p :
  ∀ parents,
    recorded parents common p →
    recorded (GroupCommonParents num_common_args group parents) common p.
Proof.
  induction group as [|gi rest IH]; intros parents H; [done|].
  simpl. apply IH. by apply foldl_pairs_mono.
Qed.

Lemma foldl_pairs_records gi gj rest :
  ∀ parents,
    gj ∈ rest →
    num_common_args ≤ Z.of_nat (length (set_intersection gi.2 gj.2)) →
    let parents' :=
      foldl (λ parents gj, common_parents_of_pair num_common_args gi gj parents)
            parents rest in
    recorded parents' (set_intersection gi.2 gj.2) gi.1 ∧
    recorded parents' (set_intersection gi.2 gj.2) gj.1.
Proof.
  induction rest as [|g rest IH]; intros parents Hin Hlen; [by apply elem_of_nil in Hin|].
  simpl. apply elem_of_cons in Hin as [->|Hin].
  - destruct (common_parents_of_pair_records gi g parents Hlen) as [H1 H2].
    split; by apply foldl_pairs_mono.
  - by apply IH.
Qed.

Lemma GroupCommonParents_records group :
  ∀ parents i j gi gj,
    (i < j)%nat → group !! i = Some gi → group !! j = Some gj →
    num_common_args ≤ Z.of_nat (length (set_intersection gi.2 gj.2)) →
    recorded (GroupCommonParents num_common_args group parents)
             (set_intersection gi.2 gj.2) gi.1 ∧
    recorded (GroupCommonParents num_common_args group parents)
             (set_intersection gi.2 gj.2) gj.1.
Proof.
  induction group as [|g0 rest IH]; intros parents i j gi gj Hij Hi Hj Hlen; [done|].
  destruct j as [|j]; [lia|]. simpl in Hj.
  destruct i as [|i]; simpl in Hi.
  - simplify_eq. simpl.
    destruct (foldl_pairs_records gi gj rest parents) as [H1 H2];
      [by eapply list_elem_of_lookup_2|done|].
    split; by apply GroupCommonParents_mono.
  - simpl. apply (IH _ i j); [lia|done|done|done].
Qed.

End CommonParents.

(** X11: every gate that [GroupCommonParents] records under a key is a gate of
    the group that has all the arguments of the key among its own common
    arguments, and a key has at least [num_common_args] arguments. *)
Theorem GroupCommonParents_sound num_common_args group common p :
  0 ≤ num_common_args < 2 ^ 64 →
  recorded (GroupCommonParents num_common_args group ∅) common p →
  justified num_common_args group common p.
Proof.
  intros Hnum.
  apply (GroupCommonParents_justified num_common_args Hnum group group ∅); [done|].
  intros c q (ps & Hl & _). by rewrite lookup_empty in Hl.
Qed.

(** X12: two gates of the group whose sorted common arguments share at least
    [num_common_args] members are both recorded by [GroupCommonParents], under
    the key that holds exactly the members the two have in common. *)
Theorem GroupCommonParents_complete num_common_args group i j gi gj :
  0 ≤ num_common_args < 2 ^ 64 →
  (i < j)%nat → group !! i = Some gi → group !! j = Some gj →
  StronglySorted Z.lt gi.2 → StronglySorted Z.lt gj.2 →
  num_common_args ≤ Z.of_nat (length (set_intersection gi.2 gj.2)) →
  ∃ common,
    (∀ x, x ∈ common ↔ x ∈ gi.2 ∧ x ∈ gj.2) ∧
    recorded (GroupCommonParents num_common_args group ∅) common gi.1 ∧
    recorded (GroupCommonParents num_common_args group ∅) common gj.1.
Proof.
  intros Hnum Hij Hi Hj Si Sj Hlen.
  exists (set_intersection gi.2 gj.2). split.
  - intros x. split; [apply set_intersection_sound|].
    intros [? ?]. by apply set_intersection_complete.
  - by apply (GroupCommonParents_records num_common_args Hnum group ∅ i j).
Qed.

Lemma GroupCommonParents_sound_witness :
  let group := [(7, [1; 2; 3]); (8, [2; 3; 5]); (9, [1; 5])] in
  0 ≤ 2 < 2 ^ 64 ∧
  recorded (GroupCommonParents 2 group ∅) [2; 3] 8 ∧
  justified 2 group [2; 3] 8.
Proof.
  intros group.
  assert (Hnum : 0 ≤ 2 < 2 ^ 64) by lia.
  assert (Hrec : recorded (GroupCommonParents 2 group ∅) [2; 3] 8).
  { eexists. split; [reflexivity|]. set_solver. }
  split; [exact Hnum|]. split; [exact Hrec|].
  exact (GroupCommonParents_sound 2 group [2; 3] 8 Hnum Hrec).
Defined.

Lemma GroupCommonParents_complete_witness :
  let group := [(7, [1; 2; 3]); (8, [2; 3; 5]); (9, [1; 5])] in
  0 ≤ 2 < 2 ^ 64 ∧
  ∃ common,
    (∀ x, x ∈ common ↔ x ∈ [1; 2; 3] ∧ x ∈ [2; 3; 5]) ∧
    recorded (GroupCommonParents 2 group ∅) common 7 ∧
    recorded (GroupCommonParents 2 group ∅) common 8.
Proof.
  intros group.
  assert (Hnum : 0 ≤ 2 < 2 ^ 64) by lia.
  split; [exact Hnum|].
  apply (GroupCommonParents_complete 2 group 0 1 (7, [1; 2; 3]) (8, [2; 3; 5]) Hnum).
  - lia.
  - reflexivity.
  - reflexivity.
  - simpl. repeat constructor; lia.
  - simpl. repeat constructor; lia.
  - simpl. lia.
Defined.

(** ** Replacing a gate unlinks it *)

Lemma elem_of_parents h node p :
  p ∈ parents h node ↔ ∃ n, nodes h !! p = Some n ∧ holds_arg node n = true.
Proof.
  unfold parents. rewrite list_elem_of_fmap. split.
  - intros ([q n] & -> & Hin). apply elem_of_map_to_list in Hin.
    apply map_lookup_filter_Some in Hin as [Hn Hh]. by exists n.
  - intros (n & Hn & Hh). exists (p, n). split; [done|].
    apply elem_of_map_to_list. by apply map_lookup_filter_Some.
Qed.

Lemma NoDup_parents h node : NoDup (parents h node).
Proof. unfold parents. apply NoDup_fst_map_to_list. Qed.

Lemma holds_arg_iff node n :
  holds_arg node n = true ↔
  ∃ g, n = NGate g ∧ (node ∈ args g ∨ - node ∈ args g).
Proof.
  destruct n as [g| |]; simpl.
  - rewrite orb_true_iff, !count_true_iff. split; [by exists g|].
    by intros (g' & [= <-] & H).
  - split; [done|]. by intros (g & ? & _).
  - split; [done|]. by intros (g & ? & _).
Qed.

(** The gate that one turn of the loop leaves of the parent. *)
Lemma AddArg_args arg g x :
  x ∈ args (Gate.AddArg arg g) → x = arg ∨ x ∈ args g.
Proof.
  unfold Gate.AddArg.
  destruct (IntSet.count arg (args g)); [by right|].
  destruct (IntSet.count (- arg) (args g)).
  - destruct (type g); simpl; auto; by intros ?%elem_of_nil.
  - simpl. revert x. induction (args g) as [|y l IH]; intros x; simpl.
    + intros ?%list_elem_of_singleton. by left.
    + destruct (decide (arg < y)); [|destruct (decide (arg = y))].
      * intros [->|H]%elem_of_cons; [by left|by right].
      * by right.
      * intros [->|H]%elem_of_cons; [right; by left|].
        destruct (IH _ H) as [->|?]; [by left|right; by right].
Qed.

Lemma EraseArg_args arg g x :
  x ∈ args (Gate.EraseArg arg g) ↔ x ∈ args g ∧ x ≠ arg.
Proof.
  unfold Gate.EraseArg, IntSet.erase. simpl. by rewrite list_elem_of_filter, (comm and).
Qed.

Section ReplaceGateFacts.
Variables gate replacement : Z.
Hypothesis distinct : Z.abs replacement ≠ Z.abs gate.

(** One turn of the loop on the store. *)
Local Abbreviation turn h parent :=
  (AddArg parent
     ((if IntSet.count (- gate) (args_of h parent) then -1 else 1) * replacement)
     (EraseArg parent
        ((if IntSet.count (- gate) (args_of h parent) then -1 else 1) * gate) h)).

Lemma turn_other h parent j :
  j ≠ parent → nodes (turn h parent) !! j = nodes h !! j.
Proof.
  intros Hj. unfold AddArg, EraseArg. by rewrite !nodes_with_gate_ne.
Qed.

Lemma turn_parent h parent g :
  nodes h !! parent = Some (NGate g) →
  one_sign h gate →
  ∃ g', nodes (turn h parent) !! parent = Some (NGate g') ∧
        (gate ∉ args g') ∧ ((- gate) ∉ args g').
Proof.
  intros Hn Hone.
  assert (Hg : get_gate h parent = Some g) by (unfold get_gate; by rewrite Hn).
  assert (Ha : args_of h parent = args g) by (unfold args_of; by rewrite Hg).
  rewrite Ha.
  set (sign := if IntSet.count (- gate) (args g) then -1 else 1).
  exists (Gate.AddArg (sign * replacement) (Gate.EraseArg (sign * gate) g)).
  split.
  { unfold AddArg, EraseArg, with_gate. simpl.
    by rewrite !lookup_alter_eq, Hn. }
  assert (Hsign : (sign = -1 ∧ - gate ∈ args g) ∨ (sign = 1 ∧ - gate ∉ args g)).
  { unfold sign. destruct (IntSet.count (- gate) (args g)) eqn:E.
    - left. split; [done|]. by apply count_true_iff.
    - right. split; [done|]. by apply count_false_iff. }
  clearbody sign.
  split; intros [E|[Hx Hne]%EraseArg_args]%AddArg_args.
  - destruct Hsign as [[-> _]|[-> _]]; lia.
  - destruct Hsign as [[-> Hm]|[-> Hm]]; [|lia]. by apply (Hone parent g).
  - destruct Hsign as [[-> _]|[-> _]]; lia.
  - destruct Hsign as [[-> Hm]|[-> Hm]]; [lia|done].
Qed.

Lemma turn_parents h parent q :
  parent ∈ parents h gate →
  one_sign h gate →
  q ∈ parents (turn h parent) gate ↔ q ∈ parents h gate ∧ q ≠ parent.
Proof.
  intros Hp Hone.
  apply elem_of_parents in Hp as (n & Hn & Hh).
  apply holds_arg_iff in Hh as (g & -> & _).
  destruct (turn_parent h parent g Hn Hone) as (g' & Hn' & H1 & H2).
  rewrite !elem_of_parents.
  destruct (decide (q = parent)) as [->|Hq].
  - split; [|by intros [_ ?]].
    intros (n & Hq & Hh). rewrite Hn' in Hq. simplify_eq.
    apply holds_arg_iff in Hh as (g1 & [= <-] & [?|?]); done.
  - rewrite (turn_other h parent q Hq). split; [by intros ?|by intros [? _]].
Qed.

Lemma turn_one_sign h parent :
  parent ∈ parents h gate → one_sign h gate → one_sign (turn h parent) gate.
Proof.
  intros Hp Hone p g Hn H1 H2.
  destruct (decide (p = parent)) as [->|Hne].
  - apply elem_of_parents in Hp as (n & Hn0 & Hh).
    apply holds_arg_iff in Hh as (g0 & -> & _).
    destruct (turn_parent h parent g0 Hn0 Hone) as (g' & Hn' & H1' & _).
    rewrite Hn' in Hn. by simplify_eq.
  - rewrite (turn_other h parent p Hne) in Hn. by apply (Hone p g).
Qed.

Lemma turn_length h parent :
  parent ∈ parents h gate → one_sign h gate →
  (length (parents (turn h parent) gate) < length (parents h gate))%nat.
Proof.
  intros Hp Hone.
  assert (parent :: parents (turn h parent) gate ⊆+ parents h gate) as Hsub.
  { apply NoDup_submseteq.
    - constructor; [|apply NoDup_parents].
      intros H. by apply (turn_parents h parent parent Hp Hone) in H as [_ ?].
    - intros q [->|Hq]%elem_of_cons; [done|].
      by apply (turn_parents h parent q Hp Hone) in Hq as [? _]. }
  apply submseteq_length in Hsub. simpl in Hsub. lia.
Qed.

Lemma ReplaceGate_spec fuel :
  ∀ c,
    one_sign (heap c) gate →
    (length (parents (heap c) gate) < fuel)%nat →
    ∃ c',
      ReplaceGate fuel gate replacement c = Some c' ∧
      parents (heap c') gate = [] ∧
      (∀ j, j ∉ parents (heap c) gate → nodes (heap c') !! j = nodes (heap c) !! j) ∧
      root_sign_ c' = root_sign_ c.
Proof.
  induction fuel as [|fuel IH]; intros c Hone Hlen; [lia|].
  simpl. destruct (parents (heap c) gate) as [|parent rest] eqn:Hps.
  { exists c. by split_and!. }
  assert (Hp : parent ∈ parents (heap c) gate) by (rewrite Hps; by left).
  set (h' := turn (heap c) parent).
  set (c1 := if decide (state_of h' parent ≠ kNormalState)
             then push_const_gate parent (set_heap h' c)
             else if decide (type_of h' parent = kNullGate)
                  then push_null_gate parent (set_heap h' c)
                  else set_heap h' c).
  assert (Hh1 : heap c1 = h').
  { unfold c1. by repeat case_decide. }
  assert (Hs1 : root_sign_ c1 = root_sign_ c).
  { unfold c1. by repeat case_decide. }
  destruct (IH c1) as (c' & Hrun & Hnil & Hframe & Hsign).
  - rewrite Hh1. by apply turn_one_sign.
  - rewrite Hh1. pose proof (turn_length (heap c) parent Hp Hone) as Hl.
    rewrite Hps in Hl. cbn [length] in Hl, Hlen. unfold h'. lia.
  - exists c'. split_and!; [exact Hrun|exact Hnil| |congruence].
    intros j Hj. rewrite Hframe.
    + rewrite Hh1. apply turn_other. intros ->. apply Hj. by left.
    + rewrite Hh1. intros Hin.
      apply (turn_parents (heap c) parent j Hp Hone) in Hin as [Hin _].
      rewrite Hps in Hin. done.
Qed.

End ReplaceGateFacts.

(** X14: [ReplaceGate] comes to an end, after as many turns of its loop as
    the gate has parents; afterwards the gate has no parent left, nothing but
    its former parents has changed, and the root sign is as before. *)
Theorem ReplaceGate_unlinks fuel gate replacement c :
  Z.abs replacement ≠ Z.abs gate →
  one_sign (heap c) gate →
  (length (parents (heap c) gate) < fuel)%nat →
  ∃ c',
    ReplaceGate fuel gate replacement c = Some c' ∧
    parents (heap c') gate = [] ∧
    (∀ j, j ∉ parents (heap c) gate → nodes (heap c') !! j = nodes (heap c) !! j) ∧
    root_sign_ c' = root_sign_ c.
Proof. intros Hd. by apply ReplaceGate_spec. Qed.

Lemma ReplaceGate_unlinks_witness :
  let g := mkIGate kOrGate kNormalState 0 [1; 2] false false in
  let p := mkIGate kAndGate kNormalState 0 [-4; 2; 3] false false in
  let q := mkIGate kOrGate kNormalState 0 [3; 4] false false in
  let h := mkHeap {[ 1 := NVariable; 2 := NVariable; 3 := NGate g; 4 := NGate g;
                     5 := NGate p; 6 := NGate q ]} 7 5 in
  let c := mkCore h 1 [] [] [] [] in
  ∃ c', ReplaceGate 3 4 3 c = Some c' ∧ parents (heap c') 4 = [] ∧
        state_of (heap c') 5 = kNullState ∧ args_of (heap c') 6 = [3].
Proof.
  intros g p q h c.
  destruct (ReplaceGate_unlinks 3 4 3 c) as (c' & Hrun & Hnil & _ & _).
  - simpl. lia.
  - intros i gi Hi H1 H2. simpl in Hi.
    rewrite !lookup_insert_Some, lookup_singleton_Some in Hi.
    repeat match type of Hi with _ ∨ _ => destruct Hi as [[_ Hi]|[_ Hi]] end;
      try match type of Hi with _ ∧ _ => destruct Hi as [_ Hi] end;
      try discriminate Hi; injection Hi as <-; simpl in H1, H2; set_solver by lia.
  - vm_compute. lia.
  - exists c'. split; [exact Hrun|]. split; [exact Hnil|].
    vm_compute in Hrun. injection Hrun as <-. split; reflexivity.
Defined.
